(** * south-pole-tasks.py: loss-year decoding, rates and the peak year

    A shallow embedding of the pure part of [src/south-pole-tasks.py]
    ([keys_integer], [year_mapping], [rate_calc], the [max] statement of
    [deforestation_rate], the start of the program up to the call of
    [main]) together with the
    fragment of the Earth Engine image algebra that the three remote
    reductions of the script are written in.

    Conventions.
    - A Python [dict] is an association list in insertion order; a
      well-formed one has pairwise distinct keys ([dict_wf]).  Assignment
      to a key keeps the position of a key already present ([dict_set]).
    - A Python exception is a value of [exn]; code that can raise returns
      a [result].
    - Python numbers (the [int] and [float] values that [getInfo] hands
      back) are exact rationals; quotients are stored reduced ([Qred]).
      Rounding of binary floating point is not part of the model. *)

From Stdlib Require Import ZArith QArith Qreduction List String Ascii Bool Lia.
From Stdlib Require Import Permutation Sorted.
From Stdlib Require Import Lqa.
Import ListNotations.

Local Open Scope Z_scope.

(** ** Exceptions and results *)

Inductive exn : Type :=
| ValueError (msg : string)      (* int() on a bad literal, max() on nothing *)
| KeyError (key : Z)             (* subscript of the lookup table *)
| ZeroDivisionError.             (* the true division of [rate_calc] *)

Inductive result (A : Type) : Type :=
| Ok (a : A)
| Raise (e : exn).

Arguments Ok {A} a.
Arguments Raise {A} e.

Definition bind {A B} (r : result A) (k : A -> result B) : result B :=
  match r with
  | Ok a => k a
  | Raise e => Raise e
  end.

Notation "x <- c1 ;; c2" := (bind c1 (fun x => c2))
  (at level 61, c1 at next level, right associativity).

Fixpoint mapM {A B} (f : A -> result B) (l : list A) : result (list B) :=
  match l with
  | [] => Ok []
  | a :: r => b <- f a ;; bs <- mapM f r ;; Ok (b :: bs)
  end.

(** ** Python built-ins used by the script *)

Module Py.

(** *** [int(str)], base 10

    Strings are sequences of ASCII characters.  The surrounding white
    space that [int] strips from such a string is the space and the
    characters 9 to 13 (tab, line feed, vertical tab, form feed,
    carriage return); one sign is allowed, and the digits may be grouped
    by single underscores.  Digits and spaces outside ASCII and the
    interpreter's optional limit on the length of a literal are outside
    the model. *)

Definition is_space (c : ascii) : bool :=
  let n := nat_of_ascii c in
  (Nat.eqb n 32 || (Nat.leb 9 n && Nat.leb n 13))%bool.

Definition digit_value (c : ascii) : option Z :=
  let n := nat_of_ascii c in
  if (Nat.leb 48 n && Nat.leb n 57)%bool then Some (Z.of_nat n - 48) else None.

Fixpoint lstrip (s : string) : string :=
  match s with
  | EmptyString => EmptyString
  | String c r => if is_space c then lstrip r else s
  end.

Fixpoint rstrip (s : string) : string :=
  match s with
  | EmptyString => EmptyString
  | String c r =>
      match rstrip r with
      | EmptyString => if is_space c then EmptyString else String c EmptyString
      | r' => String c r'
      end
  end.

Definition strip (s : string) : string := rstrip (lstrip s).

(** [after_digit] says that the previous character was a digit: only
    then may an underscore or the end of the literal follow. *)
Fixpoint digits (after_digit : bool) (acc : Z) (s : string) : option Z :=
  match s with
  | EmptyString => if after_digit then Some acc else None
  | String c r =>
      match digit_value c with
      | Some d => digits true (10 * acc + d) r
      | None =>
          if (Ascii.eqb c "_" && after_digit)%bool then digits false acc r
          else None
      end
  end.

Definition parse_int (s : string) : option Z :=
  match strip s with
  | String "+" r => digits false 0 r
  | String "-" r => option_map Z.opp (digits false 0 r)
  | body => digits false 0 body
  end.

Definition int (s : string) : result Z :=
  match parse_int s with
  | Some n => Ok n
  | None => Raise (ValueError s)
  end.

(** *** [str(int)] *)

Definition digit_char (d : Z) : ascii := ascii_of_nat (48 + Z.to_nat d).

Fixpoint str_pos (fuel : nat) (n : Z) (acc : string) : string :=
  match fuel with
  | O => acc
  | S fuel' =>
      let acc' := String (digit_char (n mod 10)) acc in
      if n / 10 =? 0 then acc' else str_pos fuel' (n / 10) acc'
  end.

Definition str_nat (n : Z) : string := str_pos (S (Z.to_nat n)) n EmptyString.

Definition str (n : Z) : string :=
  if n <? 0 then String "-" (str_nat (- n)) else str_nat n.

(** *** [sorted]

    Python's sort is stable and uses [<] only, so its result is the one
    of this insertion sort. *)

Section Sorted.
Context {A : Type} (lt : A -> A -> bool).

Fixpoint insert (x : A) (l : list A) : list A :=
  match l with
  | [] => [x]
  | y :: r => if lt y x then y :: insert x r else x :: y :: r
  end.

Fixpoint sorted (l : list A) : list A :=
  match l with
  | [] => []
  | x :: r => insert x (sorted r)
  end.
End Sorted.

(** [sorted(l, key=f)]: the keys are computed first, left to right, then
    the decorated items are sorted on the key alone. *)
Definition sorted_key {A} (f : A -> result Z) (l : list A) : result (list A) :=
  ks <- mapM f l ;;
  Ok (map snd (sorted (fun a b => fst a <? fst b) (combine ks l))).

(** *** [max(items, key=f)]: the first item is kept until a strictly
    greater key shows up. *)

Definition Qltb (a b : Q) : bool := negb (Qle_bool b a).

Fixpoint max_from {A} (f : A -> Q) (best : A) (l : list A) : A :=
  match l with
  | [] => best
  | x :: r => if Qltb (f best) (f x) then max_from f x r else max_from f best r
  end.

Definition max_key {A} (f : A -> Q) (l : list A) : result A :=
  match l with
  | [] => Raise (ValueError "max() arg is an empty sequence")
  | x :: r => Ok (max_from f x r)
  end.

End Py.

(** ** Dictionaries *)

Definition dict (K V : Type) : Type := list (K * V).

Definition keys {K V} (d : dict K V) : list K := map fst d.

Definition dict_wf {K V} (d : dict K V) : Prop := NoDup (keys d).

Fixpoint dict_get {V} (d : dict Z V) (k : Z) : option V :=
  match d with
  | [] => None
  | (k', v) :: r => if k' =? k then Some v else dict_get r k
  end.

(** [d[k] = v] *)
Fixpoint dict_set {V} (d : dict Z V) (k : Z) (v : V) : dict Z V :=
  match d with
  | [] => [(k, v)]
  | (k', v') :: r => if k' =? k then (k', v) :: r else (k', v') :: dict_set r k v
  end.

(** [{key: value for item in items}] where computing the pair may raise;
    [acc] is the dictionary built so far. *)
Fixpoint dict_comp {A V} (f : A -> result (Z * V)) (items : list A)
    (acc : dict Z V) : result (dict Z V) :=
  match items with
  | [] => Ok acc
  | a :: r => kv <- f a ;; dict_comp f r (dict_set acc (fst kv) (snd kv))
  end.

(** ** The script *)

(** *** [keys_integer], [year_mapping] (lines 150-169) *)

Section Decoder.
Context {V : Type}.

Definition keys_integer (years : dict string V) : result (dict Z V) :=
  items <- Py.sorted_key (fun item => Py.int (fst item)) years ;;
  dict_comp (fun item => key <- Py.int (fst item) ;; Ok (key, snd item))
            items [].

Definition new_keys_mapping : dict Z Z :=
  [(1, 2000); (2, 2001); (3, 2003); (4, 2004); (5, 2005); (6, 2006);
   (7, 2007); (8, 2008); (9, 2009); (10, 2010); (11, 2011); (12, 2012);
   (13, 2013); (14, 2014); (15, 2015); (16, 2016); (17, 2017); (18, 2018);
   (19, 2019); (20, 2020); (21, 2021); (22, 2022)].

(** [new_keys_mapping[key]] *)
Definition subscript (key : Z) : result Z :=
  match dict_get new_keys_mapping key with
  | Some year => Ok year
  | None => Raise (KeyError key)
  end.

Definition year_mapping (sorted_unique_years : dict Z V) : result (dict Z V) :=
  dict_comp (fun item => year <- subscript (fst item) ;; Ok (year, snd item))
            sorted_unique_years [].

(** The decoder of the rate pipeline: [year_mapping] after [keys_integer]. *)
Definition decode (histogram : dict string V) : result (dict Z V) :=
  d <- keys_integer histogram ;; year_mapping d.
End Decoder.

(** *** [rate_calc] (lines 172-187) *)

(** [<] on the [(year, value)] tuples that [sorted(loss_dict.items())]
    compares. *)
Definition tuple_lt (a b : Z * Q) : bool :=
  ((fst a <? fst b) || ((fst a =? fst b) && Py.Qltb (snd a) (snd b)))%bool.

(** [a / b] on numbers: the exact quotient, where Python rounds it to
    the nearest binary64 value; a zero divisor raises, as in Python, for
    integers and floats alike.  (The [OverflowError] of a quotient of
    integers beyond the range of binary64 is outside the model.) *)
Definition true_div (a b : Q) : result Q :=
  if Qeq_bool b 0 then Raise ZeroDivisionError else Ok (Qred (a / b)).

Fixpoint rate_loop (items : list (Z * Q)) (previous_value : option Q)
    (deforestation_rates : dict Z Q) : result (dict Z Q) :=
  match items with
  | [] => Ok deforestation_rates
  | (year, value) :: rest =>
      rates <- match previous_value with
               | Some previous =>
                   rate <- true_div (value - previous) previous ;;
                   Ok (dict_set deforestation_rates year rate)
               | None => Ok deforestation_rates
               end ;;
      rate_loop rest (Some value) rates
  end.

Definition rate_calc (loss_dict : dict Z Q) : result (dict Z Q) :=
  rate_loop (Py.sorted tuple_lt loss_dict) None [].

(** *** The peak rate (line 146):
    [max(yearly_rate.items(), key=lambda x: x[1])] *)

Definition select_peak (yearly_rate : dict Z Q) : result (Z * Q) :=
  Py.max_key snd yearly_rate.

(** ** The remote reductions

    The fragment of Earth Engine's image algebra that the script uses,
    evaluated pixel by pixel over the raster cells of the region at the
    requested scale.  A single-band image is its value at each cell;
    comparisons give 1 or 0.  Every cell counts as lying wholly inside
    the region (the service weights a cell on the border by the
    fraction of it that lies inside). *)

Module EE.

Record pixel : Type := Pixel {
  treecover2000 : Z;
  gain : Z;
  loss : Z;
  lossyear : Z;
  area : Q            (* ground area of the cell, square metres *)
}.

Definition Image : Type := pixel -> Q.

Definition select (band : pixel -> Z) : Image := fun p => inject_Z (band p).
Definition pixelArea : Image := area.

Definition of_bool (b : bool) : Q := if b then 1%Q else 0%Q.

Definition gt (i : Image) (c : Z) : Image :=
  fun p => of_bool (Py.Qltb (inject_Z c) (i p)).
Definition eq (i : Image) (c : Z) : Image :=
  fun p => of_bool (Qeq_bool (i p) (inject_Z c)).
Definition And (i j : Image) : Image :=
  fun p => of_bool (negb (Qeq_bool (i p) 0) && negb (Qeq_bool (j p) 0)).
Definition multiply (i j : Image) : Image := fun p => (i p * j p)%Q.

(** [i.reduceRegion(reducer=ee.Reducer.sum(), ...)] followed by [getInfo]. *)
Definition reduceRegion_sum (region : list pixel) (i : Image) : Q :=
  Qred (fold_right (fun p s => (i p + s)%Q) 0%Q region).

End EE.

(** *** [stable_forest], [deforestation] (lines 60-106): the printed
    figures *)

Definition stable_forest (image : list EE.pixel) : Q :=
  let hansen_select :=
    EE.And (EE.And (EE.gt (EE.select EE.treecover2000) 10)
                   (EE.eq (EE.select EE.gain) 0))
           (EE.eq (EE.select EE.loss) 0) in
  let stable_forest_area :=
    EE.reduceRegion_sum image (EE.multiply hansen_select EE.pixelArea) in
  Qred (stable_forest_area / 1000000).

Definition deforestation (image : list EE.pixel) : Q :=
  let deforested_regions :=
    EE.And (EE.gt (EE.select EE.treecover2000) 10)
           (EE.eq (EE.select EE.loss) 1) in
  let deforested_area_m2 :=
    EE.reduceRegion_sum image (EE.multiply deforested_regions EE.pixelArea) in
  Qred (deforested_area_m2 / 1000000).

(** *** [deforestation_rate] (lines 109-147)

    [years] is what the frequency-histogram reduction returned. *)

Definition loss_for_year (image : list EE.pixel) (year : Z) : Q :=
  let loss_mask := EE.eq (EE.select EE.lossyear) year in
  EE.reduceRegion_sum image loss_mask.

Definition index_loss_sum (image : list EE.pixel)
    (sorted_unique_years : dict Z Q) : dict Z Q :=
  fold_left (fun d year => dict_set d year (loss_for_year image year))
            (keys sorted_unique_years) [].

Definition deforestation_rate (image : list EE.pixel) (years : dict string Q)
    : result (dict Z Q * (Z * Q)) :=
  sorted_unique_years <- keys_integer years ;;
  year_loss_sum <- year_mapping (index_loss_sum image sorted_unique_years) ;;
  yearly_rate <- rate_calc year_loss_sum ;;
  highest <- select_peak yearly_rate ;;
  Ok (yearly_rate, highest).

(** *** The script as a program: the module-level statements
    (lines 1-7) and the command-line block (lines 209-217) *)

(** What the statements of lines 1-7 do before the command-line block is
    reached: the imports and [ee.Initialize] on the credentials of the
    service-account key file either return or raise (a missing key
    file, refused credentials, no network). *)
Inductive startup : Type :=
| Initialized
| InitializeRaised.

Inductive outcome : Type :=
| Exit (status : Z)          (* sys.exit(status) *)
| Uncaught (e : exn)         (* traceback on stderr, exit status 1 *)
| StartupError               (* lines 1-7 raised: traceback, exit status 1 *)
| Main (country_name : Z).   (* main(country_name) is entered *)

Definition Fore_BLUE : string := String (ascii_of_nat 27) "[34m".

Definition usage : list string :=
  [ Fore_BLUE ++ "Usage: python script_name.py <FAO Gaul Code>";
    Fore_BLUE ++ "Example: python south-pole-tasks.py 113";
    Fore_BLUE ++ "The FAO Gaul Code corresponds to the desired country." ]%string.

(** The lines printed on standard output, and how the run ends, up to
    the call of [main]. *)
Definition script (start : startup) (argv : list string)
    : list string * outcome :=
  match start with
  | InitializeRaised => ([], StartupError)
  | Initialized =>
      if negb (Nat.eqb (List.length argv) 2) then (usage, Exit 1)
      else if String.eqb (nth 1 argv EmptyString) "--help" then (usage, Exit 1)
      else match Py.int (nth 1 argv EmptyString) with
           | Ok country_name => ([], Main country_name)
           | Raise e => ([], Uncaught e)
           end
  end.

(** The exit status of the process, where the script itself decides it. *)
Definition exit_status (o : outcome) : option Z :=
  match o with
  | Exit status => Some status
  | Uncaught _ => Some 1
  | StartupError => Some 1
  | Main _ => None
  end.

(** The area-weighted loss of a year, in square metres: the loss mask
    multiplied by the area of each cell before it is summed, the way
    [stable_forest] and [deforestation] weight their masks. *)
Definition area_weighted_loss (image : list EE.pixel) (year : Z) : Q :=
  let loss_mask := EE.eq (EE.select EE.lossyear) year in
  EE.reduceRegion_sum image (EE.multiply loss_mask EE.pixelArea).

(** Four cells of forest lost in the years of index 1 and 2; the two
    cells of index 1 are smaller than the two of index 2. *)
Definition four_cells : list EE.pixel :=
  [ EE.Pixel 80 0 1 1 900%Q; EE.Pixel 75 0 1 1 600%Q;
    EE.Pixel 90 0 1 2 900%Q; EE.Pixel 60 0 1 2 900%Q ].

(** A key as the remote service writes it: the decimal serialisation of
    the integer it denotes. *)
Definition serialised (s : string) : bool :=
  match Py.parse_int s with
  | Some n => String.eqb s (Py.str n)
  | None => false
  end.

(** ** Auxiliary definitions, used to state and prove the properties *)

(** The order on decorated items used by [sorted(..., key=...)]. *)
Definition key_lt {A} (a b : Z * A) : bool := fst a <? fst b.

(** The integer a key denotes (0 when [int] would raise). *)
Definition index_of (s : string) : Z :=
  match Py.parse_int s with
  | Some k => k
  | None => 0
  end.

(** The key of an item is a literal that [int] accepts. *)
Definition parses {V} (item : string * V) : Prop :=
  Py.parse_int (fst item) <> None.

(** What [keys_integer] returns on keys that denote distinct integers. *)
Definition indexed {V} (h : dict string V) : dict Z V :=
  Py.sorted key_lt (map (fun item => (index_of (fst item), snd item)) h).

(** The domain of the lookup table. *)
Definition in_domain (k : Z) : Prop := 1 <= k <= 22.

(** The table in closed form, on its domain. *)
Definition table_year (k : Z) : Z := if k <=? 2 then 1999 + k else 2000 + k.

(** The rates of the items that follow a first value, in iteration
    order. *)
Fixpoint rates_from (previous : Q) (items : list (Z * Q)) : list (Z * Q) :=
  match items with
  | [] => []
  | (year, value) :: rest =>
      (year, Qred ((value - previous) / previous)) :: rates_from value rest
  end.

(** The values that serve as divisor: all but the last one. *)
Definition baselines (first : Q) (items : list (Z * Q)) : list Q :=
  removelast (first :: map snd items).

(** The items of a series as [rate_calc] walks them. *)
Definition by_year (d : dict Z Q) : list (Z * Q) := Py.sorted tuple_lt d.

(** No character of the string is white space. *)
Fixpoint no_space (s : string) : bool :=
  match s with
  | EmptyString => true
  | String c r => (negb (Py.is_space c) && no_space r)%bool
  end.

(** [g] applied to every value of a dictionary. *)
Definition map_values {K V W} (g : V -> W) (d : dict K V) : dict K W :=
  map (fun kv => (fst kv, g (snd kv))) d.

Definition result_map {A B} (g : A -> B) (r : result A) : result B :=
  match r with
  | Ok a => Ok (g a)
  | Raise e => Raise e
  end.

(** The sum of the areas of a list of cells, in square metres. *)
Definition total_area (cells : list EE.pixel) : Q :=
  fold_right (fun p s => (EE.area p + s)%Q) 0%Q cells.

(** * Properties *)

(** ** The result monad *)

Lemma mapM_Ok_map {A B} (f : A -> result B) (g : A -> B) (l : list A) :
  (forall a, In a l -> f a = Ok (g a)) -> mapM f l = Ok (map g l).
Proof.
  induction l as [|a l IH]; intros H; simpl; [reflexivity|].
  rewrite (H a (or_introl eq_refl)); simpl.
  rewrite IH by (intros; apply H; now right). reflexivity.
Qed.

(** ** [sorted] *)

Section SortedFacts.
Context {A : Type} (lt : A -> A -> bool) (kf : A -> Z).
Hypothesis lt_true : forall x y, lt y x = true -> kf y <= kf x.
Hypothesis lt_false : forall x y, lt y x = false -> kf x <= kf y.

Let le_key (a b : A) : Prop := kf a <= kf b.
Let lt_key (a b : A) : Prop := kf a < kf b.

Lemma insert_perm x l : Permutation (Py.insert lt x l) (x :: l).
Proof.
  induction l as [|y l IH]; simpl; [reflexivity|].
  destruct (lt y x); [|reflexivity].
  rewrite IH. apply perm_swap.
Qed.

Lemma sorted_perm l : Permutation (Py.sorted lt l) l.
Proof.
  induction l as [|x l IH]; simpl; [reflexivity|].
  rewrite insert_perm. now constructor.
Qed.

Lemma insert_sorted x l :
  StronglySorted le_key l -> StronglySorted le_key (Py.insert lt x l).
Proof.
  induction 1 as [|y l Hs IH Hy]; simpl.
  - constructor; constructor.
  - destruct (lt y x) eqn:E.
    + constructor; [exact IH|].
      apply (Permutation_Forall (Permutation_sym (insert_perm x l))).
      constructor; [now apply lt_true | exact Hy].
    + constructor; [now constructor|].
      apply lt_false in E. constructor; [exact E|].
      revert Hy; apply Forall_impl; unfold le_key; intros; lia.
Qed.

Lemma sorted_sorted l : StronglySorted le_key (Py.sorted lt l).
Proof.
  induction l as [|x l IH]; simpl; [constructor|].
  now apply insert_sorted.
Qed.

Lemma le_key_strict l :
  StronglySorted le_key l -> NoDup (map kf l) -> StronglySorted lt_key l.
Proof.
  induction 1 as [|y l Hs IH Hy]; simpl; intros Hn; [constructor|].
  inversion Hn as [|? ? Hnin Hn']; subst.
  constructor; [now apply IH|].
  rewrite Forall_forall in *; intros z Hz.
  assert (kf y <> kf z) by (intros E; apply Hnin; rewrite E; now apply in_map).
  specialize (Hy z Hz); unfold le_key, lt_key in *; lia.
Qed.

Lemma sorted_strict l :
  NoDup (map kf l) -> StronglySorted lt_key (Py.sorted lt l).
Proof.
  intros Hn. apply le_key_strict; [apply sorted_sorted|].
  eapply Permutation_NoDup; [|exact Hn].
  apply Permutation_map, Permutation_sym, sorted_perm.
Qed.

(** A strictly ascending list is determined by its elements. *)
Lemma strict_perm_eq l1 l2 :
  StronglySorted lt_key l1 -> StronglySorted lt_key l2 ->
  Permutation l1 l2 -> l1 = l2.
Proof.
  intros H1; revert l2; induction H1 as [|x l1 Hs1 IH Hx]; intros l2 H2 Hp.
  - apply Permutation_nil in Hp; now subst.
  - destruct H2 as [|y l2 Hs2 Hy].
    + apply Permutation_sym, Permutation_nil in Hp; discriminate.
    + assert (x = y) as ->.
      { assert (Hxin : In x (y :: l2))
          by (eapply Permutation_in; [exact Hp | now left]).
        assert (Hyin : In y (x :: l1))
          by (eapply Permutation_in; [apply Permutation_sym; exact Hp | now left]).
        destruct Hxin as [->|Hxin]; [reflexivity|].
        destruct Hyin as [->|Hyin]; [reflexivity|].
        rewrite Forall_forall in Hx, Hy.
        specialize (Hx y Hyin); specialize (Hy x Hxin).
        unfold lt_key in *; lia. }
      f_equal. apply IH; [exact Hs2|].
      now apply Permutation_cons_inv in Hp.
Qed.

(** The result of [sorted] does not depend on the order of its input
    when the keys are pairwise distinct. *)
Lemma sorted_order_independent l1 l2 :
  NoDup (map kf l1) -> Permutation l1 l2 ->
  Py.sorted lt l1 = Py.sorted lt l2.
Proof.
  intros Hn Hp. apply strict_perm_eq.
  - now apply sorted_strict.
  - apply sorted_strict. eapply Permutation_NoDup; [|exact Hn].
    now apply Permutation_map.
  - rewrite !sorted_perm. exact Hp.
Qed.
End SortedFacts.

Lemma sorted_map {A B} (lt : A -> A -> bool) (lt' : B -> B -> bool)
    (g : A -> B) (l : list A) :
  (forall a b, lt' (g a) (g b) = lt a b) ->
  Py.sorted lt' (map g l) = map g (Py.sorted lt l).
Proof.
  intros H.
  assert (Hi : forall x l, Py.insert lt' (g x) (map g l) = map g (Py.insert lt x l)).
  { intros x l0; induction l0 as [|y l0 IH]; simpl; [reflexivity|].
    rewrite H. destruct (lt y x); simpl; [now rewrite IH | reflexivity]. }
  induction l as [|x l IH]; simpl; [reflexivity|].
  now rewrite IH, Hi.
Qed.

Lemma key_lt_true {A} (x y : Z * A) : key_lt y x = true -> fst y <= fst x.
Proof. unfold key_lt; intros H; apply Z.ltb_lt in H; lia. Qed.

Lemma key_lt_false {A} (x y : Z * A) : key_lt y x = false -> fst x <= fst y.
Proof. unfold key_lt; intros H; apply Z.ltb_ge in H; lia. Qed.

Lemma tuple_lt_true (x y : Z * Q) : tuple_lt y x = true -> fst y <= fst x.
Proof.
  unfold tuple_lt; intros H. apply orb_true_iff in H as [H|H].
  - apply Z.ltb_lt in H; lia.
  - apply andb_true_iff in H as [H _]. apply Z.eqb_eq in H; lia.
Qed.

Lemma tuple_lt_false (x y : Z * Q) : tuple_lt y x = false -> fst x <= fst y.
Proof.
  unfold tuple_lt; intros H. apply orb_false_iff in H as [H _].
  apply Z.ltb_ge in H; lia.
Qed.

(** ** Dictionaries *)

Lemma dict_set_fresh {V} (d : dict Z V) k v :
  ~ In k (keys d) -> dict_set d k v = d ++ [(k, v)].
Proof.
  induction d as [|[k' v'] d IH]; simpl; intros H; [reflexivity|].
  destruct (Z.eqb_spec k' k) as [->|Hne]; [exfalso; apply H; now left|].
  rewrite IH; [reflexivity|]. intros Hin; apply H; now right.
Qed.

Lemma dict_set_keys {V} (d : dict Z V) k v x :
  In x (keys (dict_set d k v)) <-> In x (keys d) \/ x = k.
Proof.
  induction d as [|[k' v'] d IH]; simpl.
  - intuition.
  - destruct (Z.eqb_spec k' k) as [->|Hne]; simpl.
    + intuition.
    + rewrite IH. intuition.
Qed.

Lemma dict_comp_append {A V} (f : A -> result (Z * V)) (g : A -> Z * V) items :
  (forall a, In a items -> f a = Ok (g a)) ->
  forall acc, NoDup (keys acc ++ map fst (map g items)) ->
  dict_comp f items acc = Ok (acc ++ map g items).
Proof.
  induction items as [|a items IH]; simpl; intros Hf acc Hn.
  - now rewrite app_nil_r.
  - rewrite (Hf a (or_introl eq_refl)); simpl.
    assert (Hfresh : ~ In (fst (g a)) (keys acc)).
    { intros Hin. apply NoDup_remove_2 in Hn. apply Hn, in_or_app. now left. }
    rewrite dict_set_fresh by exact Hfresh.
    rewrite <- surjective_pairing, IH.
    + now rewrite <- app_assoc.
    + intros; apply Hf; now right.
    + unfold keys in *. rewrite map_app, <- app_assoc. exact Hn.
Qed.

Lemma dict_comp_keys {A V} (f : A -> result (Z * V)) (g : A -> Z * V) items :
  (forall a, In a items -> f a = Ok (g a)) ->
  forall acc, exists d, dict_comp f items acc = Ok d /\
    forall k, In k (keys d) <-> In k (keys acc) \/ In k (map fst (map g items)).
Proof.
  induction items as [|a items IH]; simpl; intros Hf acc.
  - exists acc; split; [reflexivity | intuition].
  - rewrite (Hf a (or_introl eq_refl)); simpl.
    destruct (IH (fun x Hx => Hf x (or_intror Hx))
                 (dict_set acc (fst (g a)) (snd (g a)))) as [d [Hd Hk]].
    exists d; split; [exact Hd|].
    intros k; rewrite Hk, dict_set_keys. intuition.
Qed.

Lemma dict_comp_raise {A V} (f : A -> result (Z * V)) (P : A -> Prop)
    (err : A -> exn) items :
  (forall a, In a items -> P a -> f a = Raise (err a)) ->
  (forall a, In a items -> ~ P a -> exists kv, f a = Ok kv) ->
  (forall a, In a items -> P a \/ ~ P a) ->
  Exists P items ->
  forall acc, exists a, In a items /\ P a /\ dict_comp f items acc = Raise (err a).
Proof.
  intros Hbad Hgood Hdec Hex.
  induction items as [|a items IH]; intros acc; [inversion Hex|].
  destruct (Hdec a (or_introl eq_refl)) as [Ha|Ha].
  - exists a; simpl. rewrite (Hbad a) by (auto; now left). auto.
  - destruct (Hgood a (or_introl eq_refl) Ha) as [kv Hkv].
    inversion Hex as [? ? Hx|? ? Hx]; subst; [contradiction|].
    destruct (IH (fun x Hx => Hbad x (or_intror Hx))
                 (fun x Hx => Hgood x (or_intror Hx))
                 (fun x Hx => Hdec x (or_intror Hx)) Hx
                 (dict_set acc (fst kv) (snd kv))) as [b [Hb [HPb Hr]]].
    exists b; simpl; rewrite Hkv; simpl. auto.
Qed.

Lemma NoDup_map_in {A B} (f : A -> B) (l : list A) :
  (forall x y, In x l -> In y l -> f x = f y -> x = y) ->
  NoDup l -> NoDup (map f l).
Proof.
  induction l as [|a l IH]; simpl; intros Hinj Hn; [constructor|].
  inversion Hn as [|? ? Hnin Hn']; subst. constructor.
  - intros Hin. apply in_map_iff in Hin as [b [Hb Hbl]].
    apply Hinj in Hb; [subst; contradiction | now right | now left].
  - apply IH; [|exact Hn']. intros x y Hx Hy; apply Hinj; now right.
Qed.

(** ** [keys_integer] *)

Lemma int_index_of s : Py.parse_int s <> None -> Py.int s = Ok (index_of s).
Proof.
  unfold Py.int, index_of. destruct (Py.parse_int s); [reflexivity | congruence].
Qed.

Lemma combine_map_self {A B} (f : A -> B) (l : list A) :
  combine (map f l) l = map (fun a => (f a, a)) l.
Proof. induction l; simpl; congruence. Qed.

Section KeysInteger.
Context {V : Type}.
Implicit Type h : dict string V.

Let decorate (item : string * V) : Z * (string * V) :=
  (index_of (fst item), item).

Lemma sorted_key_Ok h :
  Forall parses h ->
  Py.sorted_key (fun item => Py.int (fst item)) h
  = Ok (map snd (Py.sorted key_lt (map decorate h))).
Proof.
  intros Hp. unfold Py.sorted_key.
  rewrite (mapM_Ok_map _ (fun item => index_of (fst item))).
  - simpl. now rewrite combine_map_self.
  - rewrite Forall_forall in Hp. intros a Ha. now apply int_index_of, Hp.
Qed.

Lemma sorted_key_Raise h :
  Exists (fun item => ~ parses item) h ->
  exists item, In item h /\ ~ parses item /\
    Py.sorted_key (fun item => Py.int (fst item)) h
    = Raise (ValueError (fst item)).
Proof.
  induction 1 as [item h Hbad | item h Hex [bad [Hin [Hbad IH]]]].
  - exists item; split; [now left | split; [exact Hbad|]].
    unfold Py.sorted_key, Py.int; simpl.
    destruct (Py.parse_int (fst item)) eqn:E; [|reflexivity].
    exfalso; apply Hbad; unfold parses; congruence.
  - unfold Py.sorted_key in *; simpl.
    destruct (Py.int (fst item)) as [k|e] eqn:Ek; simpl.
    + exists bad; split; [now right | split; [exact Hbad|]].
      destruct (mapM _ h); simpl in *; [discriminate | exact IH].
    + exists item. unfold Py.int in Ek.
      destruct (Py.parse_int (fst item)) eqn:E; [discriminate|].
      injection Ek as <-.
      split; [now left | split; [|reflexivity]].
      intros Hp; now apply Hp.
Qed.

Lemma keys_integer_items h :
  Forall parses h ->
  keys_integer h
  = dict_comp (fun item => key <- Py.int (fst item) ;; Ok (key, snd item))
              (map snd (Py.sorted key_lt (map decorate h))) [].
Proof. intros Hp. unfold keys_integer. now rewrite sorted_key_Ok. Qed.

Lemma sorted_items_in h item :
  In item (map snd (Py.sorted key_lt (map decorate h))) <-> In item h.
Proof.
  assert (Hperm : Permutation (map snd (Py.sorted key_lt (map decorate h))) h).
  { rewrite (Permutation_map snd (sorted_perm key_lt (map decorate h))).
    rewrite map_map; simpl. now rewrite map_id. }
  split; apply Permutation_in; [exact Hperm | now apply Permutation_sym].
Qed.

Lemma keys_integer_Ok h :
  Forall parses h ->
  NoDup (map (fun item => index_of (fst item)) h) ->
  keys_integer h = Ok (indexed h).
Proof.
  intros Hp Hn. rewrite keys_integer_items by exact Hp.
  pose (g := fun item : string * V => (index_of (fst item), snd item)).
  rewrite (dict_comp_append _ g).
  - simpl. f_equal. unfold indexed.
    replace (map (fun item => (index_of (fst item), snd item)) h)
      with (map (fun e : Z * (string * V) => (fst e, snd (snd e)))
                (map decorate h))
      by (rewrite map_map; reflexivity).
    rewrite (sorted_map key_lt key_lt) by reflexivity.
    rewrite map_map. apply map_ext_in.
    intros e He.
    apply (Permutation_in _ (sorted_perm key_lt (map decorate h))) in He.
    apply in_map_iff in He as [item [<- _]]. reflexivity.
  - intros item Hin. apply (proj1 (sorted_items_in h item)) in Hin.
    rewrite Forall_forall in Hp. rewrite (int_index_of _ (Hp _ Hin)).
    reflexivity.
  - simpl. rewrite !map_map.
    eapply Permutation_NoDup; [|exact Hn].
    apply Permutation_sym.
    etransitivity;
      [apply Permutation_map, (sorted_perm key_lt (map decorate h))|].
    rewrite map_map. reflexivity.
Qed.

(** Without distinctness the keys of the result are still the integers
    the histogram's keys denote. *)
Lemma keys_integer_keys h :
  Forall parses h ->
  exists d, keys_integer h = Ok d /\
    forall k, In k (keys d) <-> In k (map (fun item => index_of (fst item)) h).
Proof.
  intros Hp. rewrite keys_integer_items by exact Hp.
  pose (g := fun item : string * V => (index_of (fst item), snd item)).
  destruct (dict_comp_keys
              (fun item => key <- Py.int (fst item) ;; Ok (key, snd item)) g
              (map snd (Py.sorted key_lt (map decorate h)))) with (acc := @nil (Z * V))
    as [d [Hd Hk]].
  - intros item Hin. apply (proj1 (sorted_items_in h item)) in Hin.
    rewrite Forall_forall in Hp. rewrite (int_index_of _ (Hp _ Hin)).
    reflexivity.
  - exists d; split; [exact Hd|]. intros k; rewrite Hk; simpl.
    rewrite (map_map g fst). unfold g; simpl. rewrite !in_map_iff.
    split.
    + intros [[]|[item [Hi Hin]]].
      apply (proj1 (sorted_items_in h item)) in Hin. eauto.
    + intros [item [Hi Hin]]. right. exists item.
      split; [exact Hi | now apply (proj2 (sorted_items_in h item))].
Qed.
End KeysInteger.

(** ** The lookup table and [year_mapping] *)

Lemma subscript_in k : in_domain k -> subscript k = Ok (table_year k).
Proof.
  unfold in_domain; intros H.
  assert (E : k = 1 \/ k = 2 \/ k = 3 \/ k = 4 \/ k = 5 \/ k = 6 \/ k = 7 \/
              k = 8 \/ k = 9 \/ k = 10 \/ k = 11 \/ k = 12 \/ k = 13 \/
              k = 14 \/ k = 15 \/ k = 16 \/ k = 17 \/ k = 18 \/ k = 19 \/
              k = 20 \/ k = 21 \/ k = 22) by lia.
  repeat (destruct E as [->|E]; [reflexivity|]). now subst.
Qed.

Lemma subscript_out k : ~ in_domain k -> subscript k = Raise (KeyError k).
Proof.
  unfold in_domain, subscript, new_keys_mapping; intros H; cbn [dict_get].
  repeat (match goal with
          | |- context [?a =? k] => destruct (Z.eqb_spec a k); [lia|]
          end).
  reflexivity.
Qed.

Lemma table_year_lt j k : in_domain j -> in_domain k -> j < k ->
  table_year j < table_year k.
Proof.
  unfold in_domain, table_year; intros.
  destruct (Z.leb_spec j 2), (Z.leb_spec k 2); lia.
Qed.

Lemma table_year_inj j k : in_domain j -> in_domain k ->
  table_year j = table_year k -> j = k.
Proof.
  unfold in_domain, table_year; intros.
  destruct (Z.leb_spec j 2), (Z.leb_spec k 2); lia.
Qed.

Section YearMapping.
Context {V : Type}.
Implicit Type d : dict Z V.

Let relabel (kv : Z * V) : Z * V := (table_year (fst kv), snd kv).

Lemma year_mapping_Ok d :
  Forall (fun kv => in_domain (fst kv)) d -> dict_wf d ->
  year_mapping d = Ok (map relabel d).
Proof.
  intros Hd Hn. unfold year_mapping.
  rewrite Forall_forall in Hd.
  rewrite (dict_comp_append _ relabel); [reflexivity| |].
  - intros kv Hin. now rewrite (subscript_in _ (Hd kv Hin)).
  - simpl. rewrite map_map; simpl.
    rewrite <- (map_map fst table_year).
    apply NoDup_map_in; [|exact Hn].
    intros x y Hx Hy. apply in_map_iff in Hx as [kx [<- Hx]].
    apply in_map_iff in Hy as [ky [<- Hy]].
    apply table_year_inj; now apply Hd.
Qed.

Lemma year_mapping_Raise d :
  Exists (fun kv => ~ in_domain (fst kv)) d ->
  exists kv, In kv d /\ ~ in_domain (fst kv) /\
             year_mapping d = Raise (KeyError (fst kv)).
Proof.
  intros Hex. unfold year_mapping.
  apply (dict_comp_raise _ (fun kv => ~ in_domain (fst kv))
           (fun kv => KeyError (fst kv))); [| | |exact Hex].
  - intros kv _ Hout. now rewrite (subscript_out _ Hout).
  - intros kv _ Hinn. exists (relabel kv).
    rewrite subscript_in; [reflexivity|].
    unfold in_domain in *; lia.
  - intros kv _. unfold in_domain. lia.
Qed.

Lemma relabel_ascending d :
  Forall (fun kv => in_domain (fst kv)) d ->
  StronglySorted (fun a b : Z * V => fst a < fst b) d ->
  StronglySorted Z.lt (keys (map relabel d)).
Proof.
  intros Hd Hs; induction Hs as [|kv d Hs IH Hkv]; simpl; [constructor|].
  inversion Hd as [|? ? Hk Hd']; subst.
  constructor; [now apply IH|].
  rewrite Forall_forall in *. intros y Hy.
  apply in_map_iff in Hy as [kv' [<- Hy]].
  apply in_map_iff in Hy as [kv'' [<- Hy]]. simpl.
  apply table_year_lt; auto.
Qed.
End YearMapping.

(** ** The decoder *)

Section Decode.
Context {V : Type}.
Implicit Type h : dict string V.

Lemma parsed_parses h :
  Forall (fun item => exists k, Py.parse_int (fst item) = Some k /\ in_domain k) h ->
  Forall parses h /\
  Forall (fun item => in_domain (index_of (fst item))) h.
Proof.
  intros H; split; revert H; apply Forall_impl; intros item [k [Hk Hd]].
  - unfold parses; congruence.
  - unfold index_of; now rewrite Hk.
Qed.

Lemma parsed_distinct h :
  Forall parses h ->
  NoDup (map (fun item => Py.parse_int (fst item)) h) ->
  NoDup (map (fun item => index_of (fst item)) h).
Proof.
  intros Hp Hn.
  replace (map (fun item : string * V => index_of (fst item)) h)
    with (map (fun o => match o with Some k => k | None => 0 end)
              (map (fun item : string * V => Py.parse_int (fst item)) h))
    by (rewrite map_map; reflexivity).
  apply NoDup_map_in; [|exact Hn].
  rewrite Forall_forall in Hp.
  intros x y Hx Hy. apply in_map_iff in Hx as [a [<- Ha]].
  apply in_map_iff in Hy as [b [<- Hb]].
  specialize (Hp a Ha) as Hpa. specialize (Hp b Hb) as Hpb.
  unfold parses in *.
  destruct (Py.parse_int (fst a)), (Py.parse_int (fst b)); congruence.
Qed.

Lemma indexed_in_domain h :
  Forall (fun item => in_domain (index_of (fst item))) h ->
  Forall (fun kv : Z * V => in_domain (fst kv)) (indexed h).
Proof.
  intros H. unfold indexed.
  apply (Permutation_Forall (Permutation_sym (sorted_perm key_lt _))).
  rewrite Forall_map. exact H.
Qed.

Lemma indexed_ascending h :
  NoDup (map (fun item => index_of (fst item)) h) ->
  StronglySorted (fun a b : Z * V => fst a < fst b) (indexed h).
Proof.
  intros Hn. unfold indexed.
  apply (sorted_strict key_lt fst key_lt_true key_lt_false).
  now rewrite map_map.
Qed.

Lemma indexed_wf h :
  NoDup (map (fun item => index_of (fst item)) h) -> dict_wf (indexed h).
Proof.
  intros Hn. unfold dict_wf, keys, indexed.
  eapply Permutation_NoDup;
    [apply Permutation_map, Permutation_sym, sorted_perm|].
  now rewrite map_map.
Qed.

Lemma decode_Ok h :
  Forall (fun item => exists k, Py.parse_int (fst item) = Some k /\ in_domain k) h ->
  NoDup (map (fun item => Py.parse_int (fst item)) h) ->
  decode h
  = Ok (map (fun kv => (table_year (fst kv), snd kv)) (indexed h)).
Proof.
  intros Hk Hn. destruct (parsed_parses h Hk) as [Hp Hd].
  pose proof (parsed_distinct h Hp Hn) as Hn'.
  unfold decode. rewrite keys_integer_Ok by assumption. simpl.
  apply year_mapping_Ok; [now apply indexed_in_domain | now apply indexed_wf].
Qed.
End Decode.

(** C1. A histogram whose keys denote pairwise distinct integers of the
    table's domain decodes, without error, to a series whose years are
    strictly ascending in iteration order and which has as many entries
    as the histogram has keys; the empty histogram decodes to the empty
    series. *)
Theorem decode_ascending_same_size (V : Type) :
  (forall h : dict string V,
     Forall (fun item => exists k, Py.parse_int (fst item) = Some k /\ 1 <= k <= 22) h ->
     NoDup (map (fun item => Py.parse_int (fst item)) h) ->
     exists ys, decode h = Ok ys /\
                StronglySorted Z.lt (keys ys) /\
                List.length ys = List.length h)
  /\ decode (@nil (string * V)) = Ok [].
Proof.
  split; [|reflexivity].
  intros h Hk Hn. eexists; split; [now apply decode_Ok|].
  destruct (parsed_parses h Hk) as [Hp Hd].
  pose proof (parsed_distinct h Hp Hn) as Hn'.
  split.
  - apply relabel_ascending; [now apply indexed_in_domain|].
    now apply indexed_ascending.
  - rewrite length_map. unfold indexed.
    rewrite (Permutation_length (sorted_perm key_lt _)).
    now rewrite length_map.
Qed.

Lemma decode_ascending_same_size_witness :
  exists ys, decode [("2"%string, 5); ("10"%string, 7); ("1"%string, 8)] = Ok ys /\
             StronglySorted Z.lt (keys ys) /\ List.length ys = 3%nat.
Proof.
  apply (proj1 (decode_ascending_same_size Z)
               [("2"%string, 5); ("10"%string, 7); ("1"%string, 8)]).
  - repeat (apply Forall_cons;
            [eexists; split; [vm_compute; reflexivity | lia]|]).
    apply Forall_nil.
  - vm_compute. repeat constructor; simpl; intuition discriminate.
Defined.

(** ** The table, entry by entry *)

Lemma table_get k :
  dict_get new_keys_mapping k
  = if ((1 <=? k) && (k <=? 22))%bool then Some (table_year k) else None.
Proof.
  destruct (Z.leb_spec 1 k), (Z.leb_spec k 22); cbn [andb].
  - assert (H1 : in_domain k) by (unfold in_domain; lia).
    apply subscript_in in H1. unfold subscript in H1.
    destruct (dict_get new_keys_mapping k); congruence.
  - assert (H1 : ~ in_domain k) by (unfold in_domain; lia).
    apply subscript_out in H1. unfold subscript in H1.
    destruct (dict_get new_keys_mapping k); congruence.
  - assert (H1 : ~ in_domain k) by (unfold in_domain; lia).
    apply subscript_out in H1. unfold subscript in H1.
    destruct (dict_get new_keys_mapping k); congruence.
  - lia.
Qed.

Lemma Some_eq {A} (a b : A) : Some a = Some b -> a = b.
Proof. congruence. Qed.

(** C2. The table sends 1 to 2000 and 2 to 2001; from 3, which goes to
    2003, up to 22, which goes to 2022, index [i] goes to [2000 + i]; no
    index goes to 2002; the step from one index to the next is one year
    everywhere but from 2 to 3; nothing outside 1..22 is mapped; and
    decoding the histogram with the single key "3" gives the year 2003. *)
Theorem fixed_lookup_table :
  dict_get new_keys_mapping 1 = Some 2000 /\
  dict_get new_keys_mapping 2 = Some 2001 /\
  dict_get new_keys_mapping 3 = Some 2003 /\
  dict_get new_keys_mapping 22 = Some 2022 /\
  (forall i, 3 <= i <= 22 -> dict_get new_keys_mapping i = Some (2000 + i)) /\
  (forall i, dict_get new_keys_mapping i <> Some 2002) /\
  (forall i y y', dict_get new_keys_mapping i = Some y ->
                  dict_get new_keys_mapping (i + 1) = Some y' ->
                  (i <> 2 -> y' = y + 1) /\ (i = 2 -> y' = y + 2)) /\
  (forall i, dict_get new_keys_mapping i = None <-> ~ 1 <= i <= 22) /\
  decode [("3"%string, 5)] = Ok [(2003, 5)].
Proof.
  do 4 (split; [reflexivity|]).
  split; [|split; [|split; [|split; [|reflexivity]]]].
  - intros i Hi. rewrite table_get. unfold table_year.
    destruct (Z.leb_spec 1 i), (Z.leb_spec i 22), (Z.leb_spec i 2);
      cbn [andb]; try lia; reflexivity.
  - intros i. rewrite table_get. unfold table_year.
    destruct (Z.leb_spec 1 i), (Z.leb_spec i 22), (Z.leb_spec i 2);
      cbn [andb]; try discriminate; intros E; apply Some_eq in E; lia.
  - intros i y y'. rewrite !table_get. unfold table_year.
    destruct (Z.leb_spec 1 i), (Z.leb_spec i 22), (Z.leb_spec i 2),
      (Z.leb_spec 1 (i + 1)), (Z.leb_spec (i + 1) 22), (Z.leb_spec (i + 1) 2);
      cbn [andb]; try discriminate; intros Hy Hy';
      apply Some_eq in Hy, Hy'; lia.
  - intros i. rewrite table_get.
    destruct (Z.leb_spec 1 i), (Z.leb_spec i 22); cbn [andb];
      split; try discriminate; try reflexivity; lia.
Qed.

Lemma fixed_lookup_table_witness :
  dict_get new_keys_mapping 10 = Some (2000 + 10) /\
  2003 = 2001 + 2 /\ 2004 = 2003 + 1.
Proof.
  destruct fixed_lookup_table as (_ & _ & _ & _ & Hfrom3 & _ & Hstep & _).
  split; [apply Hfrom3; lia | split].
  - apply (Hstep 2 2001 2003); reflexivity.
  - apply (Hstep 3 2003 2004); [reflexivity | reflexivity | lia].
Defined.

(** ** Indices outside the table *)

Lemma parses_dec {V} (item : string * V) : {parses item} + {~ parses item}.
Proof.
  unfold parses. destruct (Py.parse_int (fst item)); [left | right]; congruence.
Qed.

(** C7. When a key of the histogram denotes an integer outside 1..22,
    decoding raises: the result is never a series; and when every key
    denotes an integer, what is raised is the [KeyError] of the table
    subscript, at an index outside 1..22 that a key of the histogram
    denotes.  In particular decoding the histogram with the single key
    "99" raises the [KeyError] for 99. *)
Theorem decode_unmapped_index (V : Type) :
  (forall (h : dict string V) (s : string) (v : V) (k : Z),
     In (s, v) h -> Py.parse_int s = Some k -> ~ 1 <= k <= 22 ->
     (exists e, decode h = Raise e) /\
     (Forall (fun item => Py.parse_int (fst item) <> None) h ->
      exists k', ~ 1 <= k' <= 22 /\
                 In (Some k') (map (fun item => Py.parse_int (fst item)) h) /\
                 decode h = Raise (KeyError k')))
  /\ (forall v : V, decode [("99"%string, v)] = Raise (KeyError 99)).
Proof.
  split; [|reflexivity].
  intros h s v k Hin Hs Hout.
  assert (Hall : Forall parses h ->
            exists k', ~ 1 <= k' <= 22 /\
              In (Some k') (map (fun item => Py.parse_int (fst item)) h) /\
              decode h = Raise (KeyError k')).
  { intros Hp. destruct (keys_integer_keys h Hp) as [d [Hd Hk]].
    assert (Hkd : In k (keys d)).
    { apply Hk, in_map_iff. exists (s, v); split; [|exact Hin].
      unfold index_of; simpl; now rewrite Hs. }
    destruct (year_mapping_Raise d) as [kv [Hkv [Hbad Hr]]].
    { apply Exists_exists. apply in_map_iff in Hkd as [kv [<- Hkv]].
      exists kv; split; [exact Hkv | exact Hout]. }
    exists (fst kv); split; [exact Hbad|]. split.
    - assert (Hi : In (fst kv) (keys d)) by now apply in_map.
      apply Hk, in_map_iff in Hi as [item [Hi Hitem]].
      apply in_map_iff. exists item; split; [|exact Hitem].
      rewrite Forall_forall in Hp. specialize (Hp item Hitem).
      unfold parses, index_of in *.
      destruct (Py.parse_int (fst item)); congruence.
    - unfold decode. rewrite Hd. exact Hr. }
  split; [|exact Hall].
  destruct (Forall_Exists_dec parses parses_dec h) as [Hp|Hex].
  - destruct (Hall Hp) as [k' [_ [_ Hr]]]. eauto.
  - destruct (sorted_key_Raise h Hex) as [item [_ [_ Hr]]].
    exists (ValueError (fst item)). unfold decode, keys_integer.
    now rewrite Hr.
Qed.

Lemma decode_unmapped_index_witness :
  (exists e, decode [("1"%string, 4); ("0"%string, 9)] = Raise e) /\
  (Forall (fun item : string * Z => Py.parse_int (fst item) <> None)
          [("1"%string, 4); ("0"%string, 9)] ->
   exists k', ~ 1 <= k' <= 22 /\
     In (Some k') (map (fun item : string * Z => Py.parse_int (fst item))
                       [("1"%string, 4); ("0"%string, 9)]) /\
     decode [("1"%string, 4); ("0"%string, 9)] = Raise (KeyError k')).
Proof.
  apply (proj1 (decode_unmapped_index Z) _ "0"%string 9 0).
  - simpl; auto.
  - reflexivity.
  - lia.
Defined.

(** ** Order of the histogram's keys *)

Lemma serialised_parses s : serialised s = true -> Py.parse_int s <> None.
Proof. unfold serialised. destruct (Py.parse_int s); [discriminate | congruence]. Qed.

Lemma serialised_inj s t :
  serialised s = true -> serialised t = true -> index_of s = index_of t -> s = t.
Proof.
  unfold serialised, index_of.
  destruct (Py.parse_int s) as [m|], (Py.parse_int t) as [n|];
    try discriminate.
  intros Hs Ht ->. apply String.eqb_eq in Hs, Ht. congruence.
Qed.

Lemma decode_perm {V} (h1 h2 : dict string V) :
  Forall parses h1 ->
  NoDup (map (fun item => index_of (fst item)) h1) ->
  Permutation h1 h2 ->
  decode h1 = decode h2.
Proof.
  intros Hp1 Hn1 Hperm.
  assert (Hp2 : Forall parses h2)
    by (revert Hp1; apply Permutation_Forall; exact Hperm).
  assert (Hn2 : NoDup (map (fun item : string * V => index_of (fst item)) h2)).
  { eapply Permutation_NoDup; [|exact Hn1]. now apply Permutation_map. }
  unfold decode. rewrite !keys_integer_Ok by assumption.
  unfold indexed.
  rewrite (sorted_order_independent key_lt fst key_lt_true key_lt_false
             _ (map (fun item => (index_of (fst item), snd item)) h2)).
  - reflexivity.
  - now rewrite map_map.
  - now apply Permutation_map.
Qed.

(** C10. Two encoded histograms with the same key-to-count pairs (the
    keys of a dictionary are distinct, and those of an encoded histogram
    are serialised integers) decode to the same result whatever the
    order in which the pairs are presented. *)
Theorem decode_order_insensitive_serialised (V : Type)
    (h1 h2 : dict string V) :
  dict_wf h1 ->
  Forall (fun item => serialised (fst item) = true) h1 ->
  Permutation h1 h2 ->
  decode h1 = decode h2.
Proof.
  intros Hwf Hser Hperm. apply decode_perm; [| |exact Hperm].
  - revert Hser; apply Forall_impl; intros a; apply serialised_parses.
  - rewrite <- (map_map fst index_of). apply NoDup_map_in; [|exact Hwf].
    rewrite Forall_forall in Hser.
    intros x y Hx Hy. apply in_map_iff in Hx as [a [<- Ha]].
    apply in_map_iff in Hy as [b [<- Hb]].
    apply serialised_inj; now apply Hser.
Qed.

Lemma decode_order_insensitive_serialised_witness :
  decode [("2"%string, 5); ("10"%string, 7); ("1"%string, 8)]
  = decode [("1"%string, 8); ("2"%string, 5); ("10"%string, 7)].
Proof.
  apply decode_order_insensitive_serialised.
  - unfold dict_wf; simpl. repeat constructor; simpl; intuition discriminate.
  - repeat (apply Forall_cons; [vm_compute; reflexivity|]). apply Forall_nil.
  - apply Permutation_sym, Permutation_cons_app with (l1 := [_; _]) (l2 := []).
    reflexivity.
Defined.

(** The same holds for any keys that denote pairwise distinct
    integers, serialised or not. *)
Lemma decode_order_insensitive_distinct {V} (h1 h2 : dict string V) :
  Forall (fun item => Py.parse_int (fst item) <> None) h1 ->
  NoDup (map (fun item => Py.parse_int (fst item)) h1) ->
  Permutation h1 h2 ->
  decode h1 = decode h2.
Proof.
  intros Hp Hn Hperm. apply decode_perm; [exact Hp | | exact Hperm].
  now apply parsed_distinct.
Qed.

(** Keys that are not serialised integers can denote the same index
    ([int] accepts a leading zero); the later one in iteration order then
    overwrites the earlier one, so the order of presentation shows.  The
    remote service does not return such keys. *)
Lemma decode_aliased_keys :
  decode [("1"%string, 5); ("01"%string, 7)] = Ok [(2000, 7)] /\
  decode [("01"%string, 7); ("1"%string, 5)] = Ok [(2000, 5)].
Proof. split; reflexivity. Qed.

(** ** [rate_calc] *)

Lemma baselines_cons p y v rest :
  baselines p ((y, v) :: rest) = p :: baselines v rest.
Proof. reflexivity. Qed.

Lemma true_div_nonzero a b : ~ b == 0 -> true_div a b = Ok (Qred (a / b)).
Proof.
  intros H. unfold true_div.
  destruct (Qeq_bool b 0) eqn:E; [|reflexivity].
  apply Qeq_bool_iff in E. contradiction.
Qed.

Lemma true_div_zero a b : b == 0 -> true_div a b = Raise ZeroDivisionError.
Proof.
  intros H. unfold true_div. apply Qeq_bool_iff in H. now rewrite H.
Qed.

Lemma rate_loop_Ok items :
  forall p acc,
    Forall (fun b => ~ b == 0) (baselines p items) ->
    NoDup (keys acc ++ keys items) ->
    rate_loop items (Some p) acc = Ok (acc ++ rates_from p items).
Proof.
  induction items as [|[y v] rest IH]; intros p acc Hb Hn; simpl.
  - now rewrite app_nil_r.
  - rewrite baselines_cons in Hb. inversion Hb as [|? ? Hp Hb']; subst.
    rewrite (true_div_nonzero _ _ Hp). simpl.
    assert (Hfresh : ~ In y (keys acc)).
    { intros Hin. simpl in Hn. apply NoDup_remove_2 in Hn.
      apply Hn, in_or_app. now left. }
    rewrite dict_set_fresh by exact Hfresh.
    rewrite IH; [now rewrite <- app_assoc | exact Hb'|].
    unfold keys in *. rewrite map_app, <- app_assoc. exact Hn.
Qed.

Lemma rate_loop_Raise items :
  forall p acc,
    Exists (fun b => b == 0) (baselines p items) ->
    rate_loop items (Some p) acc = Raise ZeroDivisionError.
Proof.
  induction items as [|[y v] rest IH]; intros p acc Hb.
  - inversion Hb.
  - rewrite baselines_cons in Hb. simpl.
    destruct (Qeq_dec p 0) as [Hz|Hnz].
    + now rewrite (true_div_zero _ _ Hz).
    + rewrite (true_div_nonzero _ _ Hnz). simpl.
      apply IH. inversion Hb; subst; [contradiction | assumption].
Qed.

Lemma rates_from_keys p items : keys (rates_from p items) = keys items.
Proof.
  revert p; induction items as [|[y v] rest IH]; intros p; simpl;
    [reflexivity | now rewrite IH].
Qed.

Lemma rates_from_nth rest :
  forall y0 v0 i yp p y v,
    nth_error ((y0, v0) :: rest) i = Some (yp, p) ->
    nth_error rest i = Some (y, v) ->
    nth_error (rates_from v0 rest) i = Some (y, Qred ((v - p) / p)).
Proof.
  induction rest as [|[y1 v1] rest IH]; intros y0 v0 i yp p y v Hp Hv.
  - destruct i; discriminate.
  - destruct i as [|i]; simpl in *.
    + injection Hp as <- <-. injection Hv as <- <-. reflexivity.
    + eapply IH; eassumption.
Qed.

Lemma StronglySorted_keys {V} (l : list (Z * V)) :
  StronglySorted (fun a b => fst a < fst b) l -> StronglySorted Z.lt (keys l).
Proof.
  induction 1 as [|a l Hs IH Ha]; simpl; constructor; [exact IH|].
  rewrite Forall_forall in *. intros k Hk.
  apply in_map_iff in Hk as [b [<- Hb]]. now apply Ha.
Qed.

Lemma by_year_perm d : Permutation (by_year d) d.
Proof. apply sorted_perm. Qed.

Lemma by_year_ascending d :
  dict_wf d -> StronglySorted Z.lt (keys (by_year d)).
Proof.
  intros Hwf. apply StronglySorted_keys.
  apply (sorted_strict tuple_lt fst tuple_lt_true tuple_lt_false). exact Hwf.
Qed.

Lemma rate_calc_Ok d :
  dict_wf d ->
  Forall (fun b => ~ b == 0) (removelast (map snd (by_year d))) ->
  rate_calc d = Ok (match by_year d with
                    | [] => []
                    | (_, v0) :: rest => rates_from v0 rest
                    end).
Proof.
  intros Hwf Hb. unfold rate_calc. fold (by_year d).
  assert (Hn : NoDup (keys (by_year d))).
  { eapply Permutation_NoDup; [|exact Hwf].
    apply Permutation_map, Permutation_sym, by_year_perm. }
  destruct (by_year d) as [|[y0 v0] rest]; [reflexivity|].
  cbn [rate_loop bind].
  rewrite rate_loop_Ok; [reflexivity | exact Hb|].
  simpl. now inversion Hn.
Qed.

Lemma rate_calc_Raise d :
  Exists (fun b => b == 0) (removelast (map snd (by_year d))) ->
  rate_calc d = Raise ZeroDivisionError.
Proof.
  intros Hb. unfold rate_calc. fold (by_year d).
  destruct (by_year d) as [|[y0 v0] rest]; [inversion Hb|].
  cbn [rate_loop bind]. now apply rate_loop_Raise.
Qed.

(** C3. [rate_calc] walks the series in ascending year order.  When no
    value but the last is zero it returns a rate series that holds, in
    that order, every year but the first, the rate of a year being
    (value - previous) / previous with the value of the year just before
    it in the series.  The empty and the one-entry series give the empty
    rate series, and {2000: 100, 2001: 150, 2002: 120} gives
    {2001: 1/2, 2002: -1/5}. *)
Theorem rate_calc_consecutive :
  (forall d : dict Z Q,
     dict_wf d ->
     Forall (fun b => ~ b == 0) (removelast (map snd (Py.sorted tuple_lt d))) ->
     exists r,
       rate_calc d = Ok r /\
       Permutation (Py.sorted tuple_lt d) d /\
       StronglySorted Z.lt (keys (Py.sorted tuple_lt d)) /\
       keys r = tl (keys (Py.sorted tuple_lt d)) /\
       forall i yp p y v,
         nth_error (Py.sorted tuple_lt d) i = Some (yp, p) ->
         nth_error (Py.sorted tuple_lt d) (S i) = Some (y, v) ->
         exists rate, nth_error r i = Some (y, rate) /\ (rate == (v - p) / p)%Q)
  /\ rate_calc [] = Ok []
  /\ (forall y v, rate_calc [(y, v)] = Ok [])
  /\ rate_calc [(2000, 100%Q); (2001, 150%Q); (2002, 120%Q)]
     = Ok [(2001, (1 # 2)%Q); (2002, (-1 # 5)%Q)].
Proof.
  split; [|repeat split].
  intros d Hwf Hb. eexists; split; [now apply rate_calc_Ok|].
  split; [apply by_year_perm|]. split; [now apply by_year_ascending|].
  fold (by_year d). destruct (by_year d) as [|[y0 v0] rest].
  - split; [reflexivity|]. intros [|i]; discriminate.
  - split; [apply rates_from_keys|].
    intros i yp p y v Hp Hv. exists (Qred ((v - p) / p)).
    split; [|apply Qred_correct].
    eapply rates_from_nth; eassumption.
Qed.

Lemma rate_calc_consecutive_witness :
  exists r,
    rate_calc [(2004, 8%Q); (2000, 10%Q); (2001, 25%Q)] = Ok r /\
    Permutation (Py.sorted tuple_lt [(2004, 8%Q); (2000, 10%Q); (2001, 25%Q)])
                [(2004, 8%Q); (2000, 10%Q); (2001, 25%Q)] /\
    StronglySorted Z.lt
      (keys (Py.sorted tuple_lt [(2004, 8%Q); (2000, 10%Q); (2001, 25%Q)])) /\
    keys r = tl (keys (Py.sorted tuple_lt [(2004, 8%Q); (2000, 10%Q); (2001, 25%Q)])) /\
    forall i yp p y v,
      nth_error (Py.sorted tuple_lt [(2004, 8%Q); (2000, 10%Q); (2001, 25%Q)]) i
      = Some (yp, p) ->
      nth_error (Py.sorted tuple_lt [(2004, 8%Q); (2000, 10%Q); (2001, 25%Q)]) (S i)
      = Some (y, v) ->
      exists rate, nth_error r i = Some (y, rate) /\ (rate == (v - p) / p)%Q.
Proof.
  apply (proj1 rate_calc_consecutive).
  - unfold dict_wf; simpl. repeat constructor; simpl; intuition discriminate.
  - simpl. repeat constructor; intros H; discriminate H.
Defined.

(** C5. [rate_calc] raises [ZeroDivisionError] whenever a value other
    than the last one of the series, in ascending year order, is zero;
    in particular on {2000: 0, 2001: 10}. *)
Theorem rate_calc_zero_baseline :
  (forall d : dict Z Q,
     Exists (fun b => b == 0) (removelast (map snd (Py.sorted tuple_lt d))) ->
     rate_calc d = Raise ZeroDivisionError)
  /\ rate_calc [(2000, 0%Q); (2001, 10%Q)] = Raise ZeroDivisionError.
Proof.
  split; [|reflexivity]. intros d Hb. now apply rate_calc_Raise.
Qed.

Lemma rate_calc_zero_baseline_witness :
  rate_calc [(2001, 0%Q); (2000, 7%Q); (2003, 4%Q)] = Raise ZeroDivisionError.
Proof.
  apply (proj1 rate_calc_zero_baseline).
  simpl. apply Exists_cons_tl, Exists_cons_hd. reflexivity.
Defined.

(** ** The peak rate *)

Lemma Qltb_lt a b : Py.Qltb a b = true <-> (a < b)%Q.
Proof.
  unfold Py.Qltb. rewrite negb_true_iff, <- not_true_iff_false, Qle_bool_iff.
  split; [apply Qnot_le_lt | apply Qlt_not_le].
Qed.

Lemma Qltb_ge a b : Py.Qltb a b = false <-> (b <= a)%Q.
Proof.
  unfold Py.Qltb. rewrite negb_false_iff. apply Qle_bool_iff.
Qed.

(** While [max] scans, everything before the item it holds is strictly
    smaller and everything seen after it is no greater. *)
Lemma max_from_first {A} (f : A -> Q) (l : list A) :
  forall best pre mid,
    Forall (fun e => (f e < f best)%Q) pre ->
    Forall (fun e => (f e <= f best)%Q) mid ->
    exists before after,
      pre ++ best :: mid ++ l = before ++ Py.max_from f best l :: after /\
      Forall (fun e => (f e < f (Py.max_from f best l))%Q) before /\
      Forall (fun e => (f e <= f (Py.max_from f best l))%Q) after.
Proof.
  induction l as [|x l IH]; intros best pre mid Hpre Hmid; simpl.
  - exists pre, mid. now rewrite app_nil_r.
  - destruct (Py.Qltb (f best) (f x)) eqn:E.
    + apply Qltb_lt in E.
      destruct (IH x (pre ++ best :: mid) []) as [before [after [Heq H]]].
      * apply Forall_app; split; [|constructor; [exact E|]].
        -- revert Hpre; apply Forall_impl; intros e He.
           now apply Qlt_trans with (f best).
        -- revert Hmid; apply Forall_impl; intros e He.
           now apply Qle_lt_trans with (f best).
      * constructor.
      * exists before, after; split; [|exact H].
        rewrite <- Heq. simpl. now rewrite <- app_assoc.
    + apply Qltb_ge in E.
      destruct (IH best pre (mid ++ [x])) as [before [after [Heq H]]].
      * exact Hpre.
      * apply Forall_app; split; [exact Hmid | now repeat constructor].
      * exists before, after; split; [|exact H].
        rewrite <- Heq. now rewrite <- app_assoc.
Qed.

(** C6. On a rate series with at least one entry the peak is an entry of
    maximal rate, and the first such entry in iteration order: every
    entry before it has a strictly smaller rate, every entry after it a
    rate that is no greater.  On {2001: 1/2, 2002: -1/5, 2003: 1/2} it is
    (2001, 1/2). *)
Theorem select_peak_first_maximum :
  (forall rates : dict Z Q,
     rates <> [] ->
     exists year rate before after,
       select_peak rates = Ok (year, rate) /\
       rates = before ++ (year, rate) :: after /\
       Forall (fun e => (snd e < rate)%Q) before /\
       Forall (fun e => (snd e <= rate)%Q) after)
  /\ select_peak [(2001, (1 # 2)%Q); (2002, (-1 # 5)%Q); (2003, (1 # 2)%Q)]
     = Ok (2001, (1 # 2)%Q).
Proof.
  split; [|reflexivity].
  intros [|x l] Hne; [congruence|].
  destruct (max_from_first snd l x [] []) as [before [after [Heq [Hb Ha]]]];
    [constructor | constructor |].
  unfold select_peak; simpl.
  destruct (Py.max_from snd x l) as [year rate] eqn:Em.
  exists year, rate, before, after. simpl in *. auto.
Qed.

Lemma select_peak_first_maximum_witness :
  exists year rate before after,
    select_peak [(2001, (3 # 2)%Q); (2004, (-17 # 25)%Q)] = Ok (year, rate) /\
    [(2001, (3 # 2)%Q); (2004, (-17 # 25)%Q)] = before ++ (year, rate) :: after /\
    Forall (fun e => (snd e < rate)%Q) before /\
    Forall (fun e => (snd e <= rate)%Q) after.
Proof.
  apply (proj1 select_peak_first_maximum). discriminate.
Defined.

(** C8. On the empty rate series [max] raises: no (year, rate) pair is
    returned. *)
Theorem select_peak_empty :
  select_peak [] = Raise (ValueError "max() arg is an empty sequence") /\
  forall peak, select_peak [] <> Ok peak.
Proof. split; [reflexivity | discriminate]. Qed.

(** ** The command line *)

(** C9, as the code has it.  Once the module-level initialisation has
    returned: when the number of command-line words is not two (the
    argument is missing, or there are too many) or the argument is
    [--help], the three usage lines are printed and the process exits
    with status 1; when the single argument is not a literal that [int]
    accepts, nothing is printed on standard output and the process ends
    on the uncaught [ValueError], with status 1.  When the
    initialisation raises, the command line is not looked at: nothing is
    printed on standard output and the process ends with status 1. *)
Theorem script_usage (argv : list string) :
  (List.length argv <> 2%nat \/ nth_error argv 1 = Some "--help"%string ->
   script Initialized argv = (usage, Exit 1)) /\
  (forall arg,
     List.length argv = 2%nat -> nth_error argv 1 = Some arg ->
     arg <> "--help"%string -> Py.parse_int arg = None ->
     script Initialized argv = ([], Uncaught (ValueError arg)) /\
     exit_status (snd (script Initialized argv)) = Some 1) /\
  (script InitializeRaised argv = ([], StartupError) /\
   exit_status (snd (script InitializeRaised argv)) = Some 1).
Proof.
  unfold script. split; [|split; [|split; reflexivity]].
  - intros [Hlen|Hhelp].
    + destruct (Nat.eqb_spec (List.length argv) 2); [contradiction | reflexivity].
    + destruct (Nat.eqb_spec (List.length argv) 2); [|reflexivity]. simpl.
      destruct argv as [|a0 [|a1 rest]]; try discriminate.
      simpl in *. injection Hhelp as ->. reflexivity.
  - intros arg Hlen Harg Hne Hparse.
    destruct argv as [|a0 [|a1 rest]]; try discriminate.
    simpl in Harg. injection Harg as ->.
    rewrite Hlen. simpl.
    destruct (String.eqb_spec arg "--help"); [contradiction|].
    unfold Py.int. now rewrite Hparse.
Qed.

Lemma script_usage_witness :
  script Initialized ["south-pole-tasks.py"%string] = (usage, Exit 1) /\
  script Initialized ["south-pole-tasks.py"%string; "--help"%string]
  = (usage, Exit 1) /\
  script Initialized ["south-pole-tasks.py"%string; "Hungary"%string]
  = ([], Uncaught (ValueError "Hungary")).
Proof.
  split; [|split].
  - apply (proj1 (script_usage ["south-pole-tasks.py"%string])).
    left; simpl; lia.
  - apply (proj1 (script_usage ["south-pole-tasks.py"%string; "--help"%string])).
    right; reflexivity.
  - apply (proj1 (proj2 (script_usage
                           ["south-pole-tasks.py"%string; "Hungary"%string]))
                 "Hungary"%string);
      [reflexivity | reflexivity | discriminate | reflexivity].
Defined.

(** C9, as stated, fails on an argument that is not an integer literal:
    the usage text is not printed. *)
Lemma script_bad_literal_prints_no_usage :
  ~ (forall (start : startup) (argv : list string),
       (List.length argv < 2)%nat \/
       nth_error argv 1 = Some "--help"%string \/
       (exists arg, nth_error argv 1 = Some arg /\ Py.parse_int arg = None) ->
       fst (script start argv) = usage /\
       exists status, exit_status (snd (script start argv)) = Some status /\
                      status <> 0).
Proof.
  intros H.
  destruct (H Initialized ["south-pole-tasks.py"%string; "Hungary"%string])
    as [Hprint _].
  - right; right. exists "Hungary"%string. split; reflexivity.
  - vm_compute in Hprint. discriminate.
Qed.

(** ** The per-year reduction *)

Lemma Qeq_bool_inject_Z a b : Qeq_bool (inject_Z a) (inject_Z b) = (a =? b).
Proof. unfold Qeq_bool, inject_Z; simpl. now rewrite !Z.mul_1_r. Qed.

Lemma loss_for_year_count image year :
  (loss_for_year image year
   == inject_Z (Z.of_nat (List.length
                   (filter (fun p => EE.lossyear p =? year) image))))%Q.
Proof.
  unfold loss_for_year, EE.reduceRegion_sum. rewrite Qred_correct.
  induction image as [|p image IH]; simpl; [reflexivity|].
  rewrite IH. unfold EE.eq, EE.select. rewrite Qeq_bool_inject_Z.
  destruct (EE.lossyear p =? year); simpl.
  - rewrite Zpos_P_of_succ_nat, <- Z.add_1_l, inject_Z_plus. reflexivity.
  - apply Qplus_0_l.
Qed.

(** The two sibling reductions do weight by area: on [four_cells],
    all lost and all above the canopy threshold, [deforestation]
    reports their 3300 square metres, in square kilometres. *)
Lemma deforestation_weights_area :
  deforestation four_cells = (33 # 10000)%Q /\ stable_forest four_cells = 0%Q.
Proof. split; reflexivity. Qed.

(** C4.  The sum that [deforestation_rate] requests for a year is the
    number of cells whose loss year is that year: the mask is summed as
    it is, not multiplied by the cell area.  On [four_cells] the sums
    are 2 and 2 where the areas are 1500 and 1800 square metres, and the
    rate reported for 2001 is 0 where the areas give 1/5. *)
Theorem loss_for_year_counts_cells :
  (forall image year,
     (loss_for_year image year
      == inject_Z (Z.of_nat (List.length
                      (filter (fun p => EE.lossyear p =? year) image))))%Q)
  /\ loss_for_year four_cells 1 = 2%Q
  /\ loss_for_year four_cells 2 = 2%Q
  /\ area_weighted_loss four_cells 1 = 1500%Q
  /\ area_weighted_loss four_cells 2 = 1800%Q
  /\ deforestation_rate four_cells [("1"%string, 2%Q); ("2"%string, 2%Q)]
     = Ok ([(2001, 0%Q)], (2001, 0%Q))
  /\ rate_calc [(2000, 1500%Q); (2001, 1800%Q)] = Ok [(2001, (1 # 5)%Q)].
Proof.
  split; [exact loss_for_year_count | repeat split; reflexivity].
Qed.

(** ** [int] reads back what [str] writes *)

Lemma digit_cases d :
  0 <= d < 10 ->
  d = 0 \/ d = 1 \/ d = 2 \/ d = 3 \/ d = 4 \/ d = 5 \/ d = 6 \/ d = 7 \/
  d = 8 \/ d = 9.
Proof. lia. Qed.

Ltac each_digit H :=
  apply digit_cases in H;
  repeat (destruct H as [->|H]; [reflexivity|]); subst; reflexivity.

Lemma digit_value_char d :
  0 <= d < 10 -> Py.digit_value (Py.digit_char d) = Some d.
Proof. intros H. each_digit H. Qed.

Lemma digit_char_plain d :
  0 <= d < 10 ->
  Py.is_space (Py.digit_char d) = false /\
  Ascii.eqb (Py.digit_char d) "+" = false /\
  Ascii.eqb (Py.digit_char d) "-" = false.
Proof. intros H. repeat split; each_digit H. Qed.

Lemma rstrip_no_space s : no_space s = true -> Py.rstrip s = s.
Proof.
  induction s as [|c r IH]; simpl; [reflexivity|].
  intros H. apply andb_true_iff in H as [Hc Hr].
  rewrite (IH Hr). apply negb_true_iff in Hc. rewrite Hc.
  now destruct r.
Qed.

Lemma str_pos_no_space fuel :
  forall n acc, no_space acc = true -> no_space (Py.str_pos fuel n acc) = true.
Proof.
  induction fuel as [|fuel IH]; intros n acc Hacc; cbn [Py.str_pos];
    [exact Hacc|].
  assert (Hd : no_space (String (Py.digit_char (n mod 10)) acc) = true).
  { cbn [no_space]. rewrite Hacc.
    destruct (digit_char_plain (n mod 10)) as [-> _]; [|reflexivity].
    apply Z.mod_pos_bound; lia. }
  destruct (n / 10 =? 0); [exact Hd | now apply IH].
Qed.

Lemma str_pos_head fuel :
  forall n acc, exists d r,
    0 <= d < 10 /\ Py.str_pos (S fuel) n acc = String (Py.digit_char d) r.
Proof.
  induction fuel as [|fuel IH]; intros n acc.
  - exists (n mod 10), acc. split; [apply Z.mod_pos_bound; lia|].
    cbn [Py.str_pos]. now destruct (n / 10 =? 0).
  - change (Py.str_pos (S (S fuel)) n acc)
      with (let acc' := String (Py.digit_char (n mod 10)) acc in
            if n / 10 =? 0 then acc' else Py.str_pos (S fuel) (n / 10) acc').
    cbv zeta. destruct (n / 10 =? 0).
    + exists (n mod 10), acc. split; [apply Z.mod_pos_bound; lia | reflexivity].
    + apply IH.
Qed.

Lemma digits_str_pos fuel :
  forall n acc a after_digit,
    0 <= n -> (Z.to_nat n < fuel)%nat ->
    exists k, 0 <= k /\
      Py.digits after_digit a (Py.str_pos fuel n acc)
      = Py.digits true (a * 10 ^ k + n) acc.
Proof.
  induction fuel as [|fuel IH]; intros n acc a ad Hn Hfuel; [lia|].
  cbn [Py.str_pos]. destruct (Z.eqb_spec (n / 10) 0) as [Hq|Hq].
  - exists 1. split; [lia|]. cbn [Py.digits].
    rewrite digit_value_char by (apply Z.mod_pos_bound; lia).
    f_equal. Z.div_mod_to_equations; lia.
  - assert (Hn10 : 0 < n / 10 < n) by (Z.div_mod_to_equations; lia).
    destruct (IH (n / 10) (String (Py.digit_char (n mod 10)) acc) a ad)
      as [k [Hk Heq]]; [lia | lia |].
    exists (k + 1). split; [lia|]. rewrite Heq. cbn [Py.digits].
    rewrite digit_value_char by (apply Z.mod_pos_bound; lia).
    f_equal. rewrite Z.pow_add_r by lia.
    Z.div_mod_to_equations; lia.
Qed.

Lemma digits_str_nat n : 0 <= n -> Py.digits false 0 (Py.str_nat n) = Some n.
Proof.
  intros Hn. unfold Py.str_nat.
  destruct (digits_str_pos (S (Z.to_nat n)) n EmptyString 0 false)
    as [k [_ ->]]; [lia | lia |].
  cbn [Py.digits]. f_equal; lia.
Qed.

Lemma strip_str_nat n : Py.strip (Py.str_nat n) = Py.str_nat n.
Proof.
  unfold Py.strip, Py.str_nat.
  destruct (str_pos_head (Z.to_nat n) n EmptyString) as [d [r [Hd Hs]]].
  assert (Hns : no_space (Py.str_pos (S (Z.to_nat n)) n EmptyString) = true)
    by now apply str_pos_no_space.
  rewrite Hs in *. cbn [Py.lstrip].
  destruct (digit_char_plain d Hd) as [-> _].
  now apply rstrip_no_space.
Qed.

Lemma parse_int_str n : Py.parse_int (Py.str n) = Some n.
Proof.
  unfold Py.parse_int, Py.str.
  destruct (Z.ltb_spec n 0) as [Hneg|Hpos].
  - assert (Hs : Py.strip (String "-" (Py.str_nat (- n)))
                 = String "-" (Py.str_nat (- n))).
    { unfold Py.strip. cbn [Py.lstrip].
      change (Py.is_space "-") with false. cbv iota.
      apply rstrip_no_space. cbn [no_space].
      change (Py.is_space "-") with false. cbn [negb andb].
      now apply str_pos_no_space. }
    rewrite Hs. cbv iota beta.
    rewrite digits_str_nat by lia. cbn [option_map]. f_equal. lia.
  - rewrite strip_str_nat.
    pose proof (digits_str_nat n Hpos) as Hd.
    unfold Py.str_nat in *.
    destruct (str_pos_head (Z.to_nat n) n EmptyString) as [d [r [Hr Hs]]].
    rewrite Hs in *.
    destruct (digit_char_plain d Hr) as [_ [Hplus Hminus]].
    destruct (Py.digit_char d) as [b0 b1 b2 b3 b4 b5 b6 b7].
    destruct b0, b1, b2, b3, b4, b5, b6, b7; try discriminate; exact Hd.
Qed.

(** Every integer has a serialised key. *)
Lemma serialised_str n : serialised (Py.str n) = true.
Proof. unfold serialised. rewrite parse_int_str. apply String.eqb_refl. Qed.

(** * Further properties of the script *)

(** ** Dictionaries: lookup after assignment *)

Lemma dict_get_set {V} (d : dict Z V) k v k' :
  dict_get (dict_set d k v) k' = if k =? k' then Some v else dict_get d k'.
Proof.
  induction d as [|[k0 v0] d IH]; simpl; [reflexivity|].
  destruct (Z.eqb_spec k0 k) as [->|Hne]; simpl.
  - now destruct (k =? k').
  - rewrite IH. destruct (Z.eqb_spec k0 k') as [->|Hne'];
      [|reflexivity].
    destruct (Z.eqb_spec k k'); [congruence | reflexivity].
Qed.

Lemma dict_get_in {V} (d : dict Z V) k v :
  dict_wf d -> In (k, v) d -> dict_get d k = Some v.
Proof.
  unfold dict_wf. induction d as [|[k0 v0] d IH]; simpl; intros Hn Hin;
    [contradiction|].
  inversion Hn as [|? ? Hnin Hn']; subst.
  destruct Hin as [[= -> ->]|Hin].
  - now rewrite Z.eqb_refl.
  - destruct (Z.eqb_spec k0 k) as [->|Hne]; [|now apply IH].
    exfalso; apply Hnin. apply in_map_iff. now exists (k, v).
Qed.

Lemma dict_set_length {V} (d : dict Z V) k v :
  (List.length (dict_set d k v) <= S (List.length d))%nat.
Proof.
  induction d as [|[k0 v0] d IH]; simpl; [lia|].
  destruct (k0 =? k); simpl; lia.
Qed.

Lemma dict_set_ascending {V} (d : dict Z V) k v :
  StronglySorted Z.lt (keys d) -> Forall (fun a => a <= k) (keys d) ->
  StronglySorted Z.lt (keys (dict_set d k v)).
Proof.
  induction d as [|[k0 v0] d IH]; simpl; intros Hs Hle.
  - repeat constructor.
  - inversion Hs as [|? ? Hs' Hk0]; subst.
    inversion Hle as [|? ? Hk0k Hle']; subst. simpl in Hk0k.
    destruct (Z.eqb_spec k0 k) as [->|Hne]; simpl;
      [now constructor|].
    constructor; [now apply IH|].
    rewrite Forall_forall in *. intros x Hx.
    apply dict_set_keys in Hx as [Hx| ->]; [now apply Hk0 | lia].
Qed.

Lemma dict_comp_raise_first {A V} (f : A -> result (Z * V)) l1 a l2 e :
  (forall x, In x l1 -> exists kv, f x = Ok kv) -> f a = Raise e ->
  forall acc, dict_comp f (l1 ++ a :: l2) acc = Raise e.
Proof.
  intros Hok Ha. induction l1 as [|x l1 IH]; intros acc; simpl.
  - now rewrite Ha.
  - destruct (Hok x (or_introl eq_refl)) as [kv ->]. simpl.
    apply IH. intros y Hy; apply Hok; now right.
Qed.

Lemma dict_comp_ascending {A V} (f : A -> result (Z * V)) (g : A -> Z * V)
    items :
  (forall a, In a items -> f a = Ok (g a)) ->
  StronglySorted (fun a b => fst (g a) <= fst (g b)) items ->
  forall acc d,
    StronglySorted Z.lt (keys acc) ->
    (forall k a, In k (keys acc) -> In a items -> k <= fst (g a)) ->
    dict_comp f items acc = Ok d ->
    StronglySorted Z.lt (keys d) /\
    (List.length d <= List.length acc + List.length items)%nat.
Proof.
  induction items as [|a items IH]; simpl; intros Hf Hs acc d Hacc Hle Hd.
  - injection Hd as <-. split; [exact Hacc | lia].
  - rewrite (Hf a (or_introl eq_refl)) in Hd; simpl in Hd.
    inversion Hs as [|? ? Hs' Ha]; subst.
    apply IH in Hd.
    + destruct Hd as [Hd Hlen]; split; [exact Hd|].
      pose proof (dict_set_length acc (fst (g a)) (snd (g a))). lia.
    + intros; apply Hf; now right.
    + exact Hs'.
    + apply dict_set_ascending; [exact Hacc|].
      rewrite Forall_forall. intros k Hk. apply Hle; [exact Hk | now left].
    + intros k b Hk Hb. rewrite Forall_forall in Ha.
      apply dict_set_keys in Hk as [Hk| ->];
        [apply Hle; [exact Hk | now right] | now apply Ha].
Qed.

(** What a key that is assigned several times ends with. *)
Lemma dict_comp_get {A V} (f : A -> result (Z * V)) (g : A -> Z * V) items k :
  (forall a, In a items -> f a = Ok (g a)) ->
  forall acc d,
    dict_comp f items acc = Ok d ->
    dict_get d k
    = fold_left (fun found a => if fst (g a) =? k then Some (snd (g a)) else found)
                items (dict_get acc k).
Proof.
  induction items as [|a items IH]; simpl; intros Hf acc d Hd.
  - now injection Hd as <-.
  - rewrite (Hf a (or_introl eq_refl)) in Hd; simpl in Hd.
    rewrite (IH (fun x Hx => Hf x (or_intror Hx)) _ _ Hd).
    now rewrite dict_get_set.
Qed.

(** ** [sorted] is stable *)

Lemma insert_filter_key {A} (k : Z) (x : Z * A) (l : list (Z * A)) :
  filter (fun e => fst e =? k) (Py.insert key_lt x l)
  = filter (fun e => fst e =? k) (x :: l).
Proof.
  induction l as [|y l IH]; [reflexivity|].
  cbn [Py.insert]. destruct (key_lt y x) eqn:E; [|reflexivity].
  apply Z.ltb_lt in E. cbn [filter] in *. rewrite IH.
  destruct (Z.eqb_spec (fst y) k), (Z.eqb_spec (fst x) k);
    try reflexivity; lia.
Qed.

Lemma sorted_filter_key {A} (k : Z) (l : list (Z * A)) :
  filter (fun e => fst e =? k) (Py.sorted key_lt l)
  = filter (fun e => fst e =? k) l.
Proof.
  induction l as [|x l IH]; [reflexivity|].
  cbn [Py.sorted]. rewrite insert_filter_key. cbn [filter]. now rewrite IH.
Qed.

Lemma fold_left_filter {A B} (p : A -> bool) (F : B -> A -> B) l :
  (forall b a, p a = false -> F b a = b) ->
  forall b, fold_left F l b = fold_left F (filter p l) b.
Proof.
  intros Hp. induction l as [|a l IH]; intros b; simpl; [reflexivity|].
  destruct (p a) eqn:E; simpl; [apply IH|].
  rewrite (Hp b a E). apply IH.
Qed.

Lemma filter_map_comm {A B} (p : B -> bool) (f : A -> B) (l : list A) :
  filter p (map f l) = map f (filter (fun x => p (f x)) l).
Proof.
  induction l as [|a l IH]; simpl; [reflexivity|].
  destruct (p (f a)); simpl; now rewrite IH.
Qed.

Lemma mapM_Raise_first {A B} (f : A -> result B) (l1 l2 : list A) a e :
  (forall x, In x l1 -> exists b, f x = Ok b) -> f a = Raise e ->
  mapM f (l1 ++ a :: l2) = Raise e.
Proof.
  intros H Ha; induction l1 as [|x l1 IH]; simpl.
  - now rewrite Ha.
  - destruct (H x (or_introl eq_refl)) as [b ->]; simpl.
    rewrite IH by (intros; apply H; now right). reflexivity.
Qed.

(** ** [keys_integer] on arbitrary keys *)

(** X1. The keys are converted from left to right before anything is
    sorted: the first key in iteration order that [int] rejects is the
    one whose [ValueError] ends [keys_integer], and with it the decoder. *)
Theorem keys_integer_first_bad_key (V : Type) (l1 l2 : dict string V)
    (s : string) (v : V) :
  Forall (fun item => Py.parse_int (fst item) <> None) l1 ->
  Py.parse_int s = None ->
  keys_integer (l1 ++ (s, v) :: l2) = Raise (ValueError s) /\
  decode (l1 ++ (s, v) :: l2) = Raise (ValueError s).
Proof.
  intros Hl1 Hs.
  assert (Hk : keys_integer (l1 ++ (s, v) :: l2) = Raise (ValueError s)).
  { unfold keys_integer, Py.sorted_key.
    rewrite (mapM_Raise_first _ l1 l2 (s, v) (ValueError s)); [reflexivity| |].
    - rewrite Forall_forall in Hl1. intros x Hx.
      exists (index_of (fst x)). now apply int_index_of, Hl1.
    - unfold Py.int; simpl. now rewrite Hs. }
  split; [exact Hk|]. unfold decode. now rewrite Hk.
Qed.

Lemma keys_integer_first_bad_key_witness :
  keys_integer [("2"%string, 5); ("1.0"%string, 7); ("x"%string, 8)]
  = Raise (ValueError "1.0") /\
  decode [("2"%string, 5); ("1.0"%string, 7); ("x"%string, 8)]
  = Raise (ValueError "1.0").
Proof.
  apply (keys_integer_first_bad_key Z [("2"%string, 5)] [("x"%string, 8)]).
  - repeat constructor. vm_compute. discriminate.
  - reflexivity.
Defined.

Section KeysIntegerGeneral.
Context {V : Type}.
Implicit Type h : dict string V.

Let decorate (item : string * V) : Z * (string * V) :=
  (index_of (fst item), item).
Let convert (item : string * V) : result (Z * V) :=
  key <- Py.int (fst item) ;; Ok (key, snd item).
Let converted (item : string * V) : Z * V := (index_of (fst item), snd item).
Let sorted_items h : list (string * V) :=
  map snd (Py.sorted key_lt (map decorate h)).

Lemma convert_Ok h :
  Forall parses h ->
  forall item, In item (sorted_items h) -> convert item = Ok (converted item).
Proof.
  intros Hp item Hin. apply (proj1 (sorted_items_in h item)) in Hin.
  rewrite Forall_forall in Hp. unfold convert.
  now rewrite (int_index_of _ (Hp _ Hin)).
Qed.

Lemma decorated_key h e :
  In e (Py.sorted key_lt (map decorate h)) -> fst e = index_of (fst (snd e)).
Proof.
  intros He. apply (Permutation_in _ (sorted_perm key_lt _)) in He.
  apply in_map_iff in He as [item [<- _]]. reflexivity.
Qed.

Lemma sorted_items_ascending h :
  StronglySorted (fun a b => fst (converted a) <= fst (converted b))
                 (sorted_items h).
Proof.
  unfold sorted_items.
  pose proof (sorted_sorted key_lt fst key_lt_true key_lt_false
                (map decorate h)) as Hs.
  pose proof (decorated_key h) as Hkey.
  induction Hs as [|e l Hs IH He]; simpl; constructor.
  - apply IH. intros x Hx. apply Hkey. now right.
  - rewrite Forall_forall in *. intros b Hb.
    apply in_map_iff in Hb as [e' [<- He']]. simpl.
    rewrite <- (Hkey e (or_introl eq_refl)), <- (Hkey e' (or_intror He')).
    now apply He.
Qed.

Lemma sorted_items_filter h k :
  filter (fun item => index_of (fst item) =? k) (sorted_items h)
  = filter (fun item => index_of (fst item) =? k) h.
Proof.
  unfold sorted_items. rewrite filter_map_comm.
  rewrite (filter_ext_in (fun e => index_of (fst (snd e)) =? k)
                         (fun e => fst e =? k)).
  - rewrite sorted_filter_key, filter_map_comm, map_map. simpl.
    now rewrite map_id.
  - intros e He. now rewrite <- (decorated_key h e He).
Qed.

Lemma keys_integer_get h k :
  Forall parses h ->
  exists d, keys_integer h = Ok d /\
    dict_get d k
    = fold_left (fun found item =>
                   if index_of (fst item) =? k then Some (snd item) else found)
                h None.
Proof.
  intros Hp. rewrite keys_integer_items by exact Hp.
  destruct (dict_comp_keys convert converted (sorted_items h)
              (convert_Ok h Hp) []) as [d [Hd _]].
  exists d; split; [exact Hd|].
  rewrite (dict_comp_get convert converted _ k (convert_Ok h Hp) _ _ Hd).
  simpl.
  rewrite (fold_left_filter (fun item => index_of (fst item) =? k))
    by (intros b a E; simpl; now rewrite E).
  rewrite sorted_items_filter.
  symmetry. apply fold_left_filter. intros b a E; now rewrite E.
Qed.

Lemma keys_integer_sorted h d :
  Forall parses h -> keys_integer h = Ok d ->
  StronglySorted Z.lt (keys d) /\ (List.length d <= List.length h)%nat.
Proof.
  intros Hp Hd. rewrite keys_integer_items in Hd by exact Hp.
  destruct (dict_comp_ascending convert converted (sorted_items h)
              (convert_Ok h Hp) (sorted_items_ascending h) [] d)
    as [Hs Hlen]; [constructor | intros k a [] | exact Hd |].
  split; [exact Hs|]. simpl in Hlen.
  unfold sorted_items in Hlen. rewrite length_map in Hlen.
  rewrite (Permutation_length (sorted_perm key_lt _)), length_map in Hlen.
  exact Hlen.
Qed.
End KeysIntegerGeneral.

(** X2. Whatever integers the keys denote, and whether or not two keys
    denote the same one, [keys_integer] returns a dictionary whose keys
    are strictly ascending in iteration order, are exactly the integers
    that the histogram's keys denote, and are no more than the
    histogram has keys. *)
Theorem keys_integer_ascending (V : Type) (h : dict string V) :
  Forall (fun item => Py.parse_int (fst item) <> None) h ->
  exists d,
    keys_integer h = Ok d /\
    StronglySorted Z.lt (keys d) /\
    (forall k, In k (keys d) <->
               In (Some k) (map (fun item => Py.parse_int (fst item)) h)) /\
    (List.length d <= List.length h)%nat.
Proof.
  intros Hp. destruct (keys_integer_keys h Hp) as [d [Hd Hk]].
  destruct (keys_integer_sorted h d Hp Hd) as [Hs Hlen].
  exists d. repeat split; try assumption.
  - intros Hin. apply Hk, in_map_iff in Hin as [item [Hi Hitem]].
    apply in_map_iff. exists item; split; [|exact Hitem].
    rewrite Forall_forall in Hp. specialize (Hp item Hitem).
    unfold index_of in Hi. destruct (Py.parse_int (fst item)); congruence.
  - intros Hin. apply Hk. apply in_map_iff in Hin as [item [Hi Hitem]].
    apply in_map_iff. exists item; split; [|exact Hitem].
    unfold index_of. now rewrite Hi.
Qed.

Lemma keys_integer_ascending_witness :
  exists d,
    keys_integer [("10"%string, 5); ("01"%string, 7); ("1"%string, 8)] = Ok d /\
    StronglySorted Z.lt (keys d) /\
    (forall k, In k (keys d) <->
       In (Some k) (map (fun item : string * Z => Py.parse_int (fst item))
                        [("10"%string, 5); ("01"%string, 7); ("1"%string, 8)])) /\
    (List.length d <= 3)%nat.
Proof.
  apply (keys_integer_ascending Z
           [("10"%string, 5); ("01"%string, 7); ("1"%string, 8)]).
  repeat (apply Forall_cons; [vm_compute; discriminate|]). apply Forall_nil.
Defined.

(** X3. When several keys denote the same integer, the value kept under
    that integer is the one of the last such key in iteration order. *)
Theorem keys_integer_last_wins (V : Type) (l1 l2 : dict string V)
    (s : string) (v : V) (k : Z) :
  Forall (fun item => Py.parse_int (fst item) <> None) (l1 ++ (s, v) :: l2) ->
  Py.parse_int s = Some k ->
  Forall (fun item => Py.parse_int (fst item) <> Some k) l2 ->
  exists d, keys_integer (l1 ++ (s, v) :: l2) = Ok d /\ dict_get d k = Some v.
Proof.
  intros Hp Hs Hl2.
  destruct (keys_integer_get (l1 ++ (s, v) :: l2) k Hp) as [d [Hd Hg]].
  exists d; split; [exact Hd|]. rewrite Hg, fold_left_app. simpl.
  unfold index_of at 2. rewrite Hs, Z.eqb_refl.
  apply Forall_app in Hp as [_ Hp]. inversion Hp as [|? ? _ Hp2]; subst.
  clear - Hl2 Hp2. induction l2 as [|item l2 IH]; simpl; [reflexivity|].
  inversion Hl2; inversion Hp2; subst.
  replace (index_of (fst item) =? k) with false; [now apply IH|].
  symmetry. apply Z.eqb_neq. unfold index_of, parses in *.
  destruct (Py.parse_int (fst item)); congruence.
Qed.

Lemma keys_integer_last_wins_witness :
  exists d,
    keys_integer [("1"%string, 5); ("01"%string, 7); ("2"%string, 9)] = Ok d /\
    dict_get d 1 = Some 7.
Proof.
  apply (keys_integer_last_wins Z [("1"%string, 5)] [("2"%string, 9)]
                                "01"%string 7 1).
  - repeat (apply Forall_cons; [vm_compute; discriminate|]). apply Forall_nil.
  - reflexivity.
  - repeat (apply Forall_cons; [vm_compute; discriminate|]). apply Forall_nil.
Defined.

(** ** [year_mapping] on arbitrary indices *)

Lemma year_mapping_total {V} (d : dict Z V) :
  Forall (fun kv => in_domain (fst kv)) d ->
  exists ys, year_mapping d = Ok ys /\
    forall y, In y (keys ys) <-> In y (map table_year (keys d)).
Proof.
  intros Hd. rewrite Forall_forall in Hd. unfold year_mapping.
  destruct (dict_comp_keys
              (fun item : Z * V => year <- subscript (fst item) ;; Ok (year, snd item))
              (fun kv => (table_year (fst kv), snd kv)) d) with (acc := @nil (Z * V))
    as [ys [Hys Hk]].
  - intros kv Hin. now rewrite (subscript_in _ (Hd kv Hin)).
  - exists ys; split; [exact Hys|]. intros y. rewrite Hk. simpl.
    unfold keys. rewrite !map_map. simpl. intuition.
Qed.

Lemma in_domain_dec k : {in_domain k} + {~ in_domain k}.
Proof.
  unfold in_domain.
  destruct (Z_le_dec 1 k), (Z_le_dec k 22);
    [left; lia | right; lia | right; lia | right; lia].
Defined.

Lemma year_mapping_domain {V} (d ys : dict Z V) :
  year_mapping d = Ok ys -> Forall (fun kv => in_domain (fst kv)) d.
Proof.
  intros Hys.
  destruct (Forall_Exists_dec (fun kv : Z * V => in_domain (fst kv))
              (fun kv => in_domain_dec (fst kv)) d) as [Hall|Hex];
    [exact Hall|].
  destruct (year_mapping_Raise d Hex) as [kv [_ [_ Hr]]]. congruence.
Qed.

Lemma relabel_wf {V} (d : dict Z V) :
  Forall (fun kv => in_domain (fst kv)) d -> dict_wf d ->
  dict_wf (map (fun kv : Z * V => (table_year (fst kv), snd kv)) d).
Proof.
  intros Hd Hwf. unfold dict_wf, keys. rewrite map_map. simpl.
  rewrite <- (map_map fst table_year).
  apply NoDup_map_in; [|exact Hwf].
  rewrite Forall_forall in Hd.
  intros x y Hx Hy. apply in_map_iff in Hx as [kx [<- Hx]].
  apply in_map_iff in Hy as [ky [<- Hy]].
  apply table_year_inj; now apply Hd.
Qed.

Lemma relabel_get {V} (d : dict Z V) k v y :
  Forall (fun kv => in_domain (fst kv)) d -> dict_wf d ->
  In (k, v) d -> dict_get new_keys_mapping k = Some y ->
  dict_get (map (fun kv : Z * V => (table_year (fst kv), snd kv)) d) y = Some v.
Proof.
  intros Hd Hwf Hin Hy. apply dict_get_in; [now apply relabel_wf|].
  rewrite Forall_forall in Hd. specialize (Hd _ Hin). simpl in Hd.
  rewrite table_get in Hy. unfold in_domain in Hd.
  destruct (Z.leb_spec 1 k), (Z.leb_spec k 22); try lia.
  cbn [andb] in Hy. apply Some_eq in Hy. subst y.
  apply in_map_iff. now exists (k, v).
Qed.

(** X4. [year_mapping] returns a dictionary exactly when every index is
    one of 1..22 (no other condition: the values are not looked at), and
    otherwise ends with the [KeyError] of the first index in iteration
    order that is not. *)
Theorem year_mapping_succeeds_iff (V : Type) (d : dict Z V) :
  ((exists ys, year_mapping d = Ok ys) <->
   Forall (fun kv => 1 <= fst kv <= 22) d) /\
  (forall l1 k v l2,
     d = l1 ++ (k, v) :: l2 ->
     Forall (fun kv => 1 <= fst kv <= 22) l1 -> ~ 1 <= k <= 22 ->
     year_mapping d = Raise (KeyError k)).
Proof.
  split; [split|].
  - intros [ys Hys]. exact (year_mapping_domain d ys Hys).
  - intros Hall. destruct (year_mapping_total d Hall) as [ys [Hys _]]. eauto.
  - intros l1 k v l2 -> Hl1 Hk. unfold year_mapping.
    apply dict_comp_raise_first.
    + rewrite Forall_forall in Hl1. intros kv Hin.
      exists (table_year (fst kv), snd kv).
      now rewrite (subscript_in _ (Hl1 kv Hin)).
    + simpl. now rewrite (subscript_out _ Hk).
Qed.

Lemma year_mapping_succeeds_iff_witness :
  year_mapping [(3, 5); (23, 7); (0, 9)] = Raise (KeyError 23).
Proof.
  apply (proj2 (year_mapping_succeeds_iff Z [(3, 5); (23, 7); (0, 9)])
               [(3, 5)] 23 7 [(0, 9)]).
  - reflexivity.
  - repeat constructor; simpl; lia.
  - lia.
Defined.

(** X5. On a dictionary of indices (distinct keys) that it accepts,
    [year_mapping] changes the keys only: the result has the same values
    in the same order, as many entries, distinct years, each between 2000
    and 2022 and none equal to 2002, and the value of an index is found
    under the year the table gives for it. *)
Theorem year_mapping_relabels (V : Type) (d ys : dict Z V) :
  dict_wf d ->
  year_mapping d = Ok ys ->
  map snd ys = map snd d /\
  List.length ys = List.length d /\
  dict_wf ys /\
  Forall (fun y => 2000 <= y <= 2022 /\ y <> 2002) (keys ys) /\
  (forall k v y, In (k, v) d -> dict_get new_keys_mapping k = Some y ->
                 dict_get ys y = Some v).
Proof.
  intros Hwf Hys.
  pose proof (year_mapping_domain d ys Hys) as Hd.
  rewrite (year_mapping_Ok d Hd Hwf) in Hys. injection Hys as <-.
  split; [now rewrite map_map|]. split; [apply length_map|].
  split; [now apply relabel_wf|]. split.
  - unfold keys. rewrite map_map. simpl. rewrite Forall_map.
    revert Hd. apply Forall_impl. intros kv. unfold in_domain, table_year.
    destruct (Z.leb_spec (fst kv) 2); lia.
  - intros k v y Hin Hy. now apply relabel_get with (k := k).
Qed.

Lemma year_mapping_relabels_witness :
  map snd [(2003, 5); (2000, 8)] = map snd [(3, 5); (1, 8)] /\
  List.length [(2003, 5); (2000, 8)] = List.length [(3, 5); (1, 8)] /\
  dict_wf [(2003, 5); (2000, 8)] /\
  Forall (fun y => 2000 <= y <= 2022 /\ y <> 2002) (keys [(2003, 5); (2000, 8)]) /\
  (forall k v y, In (k, v) [(3, 5); (1, 8)] ->
                 dict_get new_keys_mapping k = Some y ->
                 dict_get [(2003, 5); (2000, 8)] y = Some v).
Proof.
  apply (year_mapping_relabels Z [(3, 5); (1, 8)]).
  - unfold dict_wf; simpl. repeat constructor; simpl; intuition discriminate.
  - reflexivity.
Defined.

(** ** The decoder keeps the counts *)

(** X6. On a histogram whose keys denote pairwise distinct integers of
    1..22, the count of a key is found in the decoded series under the
    year that the table gives for the integer the key denotes. *)
Theorem decode_keeps_counts (V : Type) (h : dict string V)
    (s : string) (v : V) (k : Z) :
  Forall (fun item => exists i, Py.parse_int (fst item) = Some i /\ 1 <= i <= 22) h ->
  NoDup (map (fun item => Py.parse_int (fst item)) h) ->
  In (s, v) h -> Py.parse_int s = Some k ->
  exists ys y,
    decode h = Ok ys /\
    dict_get new_keys_mapping k = Some y /\
    dict_get ys y = Some v.
Proof.
  intros Hk Hn Hin Hs.
  destruct (parsed_parses h Hk) as [Hp Hd].
  pose proof (parsed_distinct h Hp Hn) as Hn'.
  assert (Hdom : in_domain k).
  { rewrite Forall_forall in Hd. specialize (Hd _ Hin).
    unfold index_of in Hd; simpl in Hd. now rewrite Hs in Hd. }
  exists (map (fun kv => (table_year (fst kv), snd kv)) (indexed h)),
         (table_year k).
  split; [now apply decode_Ok|]. split.
  - rewrite table_get. unfold in_domain in Hdom.
    destruct (Z.leb_spec 1 k), (Z.leb_spec k 22); try lia. reflexivity.
  - apply relabel_get with (k := k).
    + now apply indexed_in_domain.
    + now apply indexed_wf.
    + unfold indexed.
      apply (Permutation_in _ (Permutation_sym (sorted_perm key_lt _))).
      apply in_map_iff. exists (s, v). split; [|exact Hin].
      unfold index_of; simpl. now rewrite Hs.
    + rewrite table_get. unfold in_domain in Hdom.
      destruct (Z.leb_spec 1 k), (Z.leb_spec k 22); try lia. reflexivity.
Qed.

Lemma decode_keeps_counts_witness :
  exists ys y,
    decode [("2"%string, 5); ("10"%string, 7); ("1"%string, 8)] = Ok ys /\
    dict_get new_keys_mapping 10 = Some y /\
    dict_get ys y = Some 7.
Proof.
  apply (decode_keeps_counts Z
           [("2"%string, 5); ("10"%string, 7); ("1"%string, 8)] "10"%string).
  - repeat (apply Forall_cons;
            [eexists; split; [vm_compute; reflexivity | lia]|]).
    apply Forall_nil.
  - vm_compute. repeat constructor; simpl; intuition discriminate.
  - simpl; auto.
  - reflexivity.
Defined.

(** ** [rate_calc]: order and range *)

(** X7. [rate_calc] sorts the items itself: the order in which the years
    were inserted in the series does not show in its result. *)
Theorem rate_calc_order_insensitive (d1 d2 : dict Z Q) :
  dict_wf d1 -> Permutation d1 d2 -> rate_calc d1 = rate_calc d2.
Proof.
  intros Hwf Hperm. unfold rate_calc.
  now rewrite (sorted_order_independent tuple_lt fst tuple_lt_true
                 tuple_lt_false d1 d2 Hwf Hperm).
Qed.

Lemma rate_calc_order_insensitive_witness :
  rate_calc [(2004, 8%Q); (2000, 10%Q); (2001, 25%Q)]
  = rate_calc [(2000, 10%Q); (2001, 25%Q); (2004, 8%Q)].
Proof.
  apply rate_calc_order_insensitive.
  - unfold dict_wf; simpl. repeat constructor; simpl; intuition discriminate.
  - apply Permutation_cons_app with (l1 := [_; _]) (l2 := []). reflexivity.
Defined.

Lemma dict_set_values {V} (P : V -> Prop) (d : dict Z V) k v :
  Forall P (map snd d) -> P v -> Forall P (map snd (dict_set d k v)).
Proof.
  induction d as [|[k0 v0] d IH]; simpl; intros Hd Hv.
  - now repeat constructor.
  - inversion Hd; subst. destruct (k0 =? k); simpl; constructor; auto.
Qed.

Lemma rate_loop_at_least_minus_one items :
  forall p rates r,
    (0 <= p)%Q ->
    Forall (fun v => (0 <= v)%Q) (map snd items) ->
    Forall (fun rate => (-1 <= rate)%Q) (map snd rates) ->
    rate_loop items (Some p) rates = Ok r ->
    Forall (fun rate => (-1 <= rate)%Q) (map snd r).
Proof.
  induction items as [|[y v] items IH]; intros p rates r Hp Hv Hr Hloop.
  - simpl in Hloop. now injection Hloop as <-.
  - cbn [rate_loop] in Hloop. inversion Hv as [|? ? Hv0 Hv']; subst.
    simpl in Hv0. unfold true_div in Hloop.
    destruct (Qeq_bool p 0) eqn:Ep; [discriminate|].
    apply Qeq_bool_neq in Ep. cbn [bind] in Hloop.
    apply IH in Hloop; [exact Hloop | exact Hv0 | exact Hv'|].
    apply dict_set_values; [exact Hr|].
    rewrite Qred_correct.
    assert (Hpos : (0 < p)%Q).
    { apply Qle_lteq in Hp as [Hp|Hp]; [exact Hp|].
      exfalso; apply Ep. now symmetry. }
    apply Qle_shift_div_l; [exact Hpos|]. lra.
Qed.

(** X9. When no value of the series is negative (they are sums of a 0/1
    mask), no rate that [rate_calc] returns is below -1. *)
Theorem rate_calc_at_least_minus_one (d r : dict Z Q) :
  Forall (fun v => (0 <= v)%Q) (map snd d) ->
  rate_calc d = Ok r ->
  Forall (fun rate => (-1 <= rate)%Q) (map snd r).
Proof.
  intros Hv Hr. unfold rate_calc in Hr.
  assert (Hs : Forall (fun v => (0 <= v)%Q) (map snd (Py.sorted tuple_lt d))).
  { revert Hv. apply Permutation_Forall, Permutation_map, Permutation_sym,
      sorted_perm. }
  destruct (Py.sorted tuple_lt d) as [|[y0 v0] items]; simpl in Hr.
  - injection Hr as <-. constructor.
  - inversion Hs; subst.
    eapply rate_loop_at_least_minus_one; [| | |exact Hr]; auto.
Qed.

Lemma rate_calc_at_least_minus_one_witness :
  Forall (fun rate => (-1 <= rate)%Q) (map snd [(2001, (3 # 2)%Q); (2002, (-1)%Q)]).
Proof.
  apply (rate_calc_at_least_minus_one [(2000, 10%Q); (2002, 0%Q); (2001, 25%Q)]).
  - repeat constructor; discriminate.
  - reflexivity.
Defined.

(** ** [keys_integer] does not look at the values *)

Lemma dict_set_map_values {V W} (g : V -> W) (d : dict Z V) k v :
  dict_set (map_values g d) k (g v) = map_values g (dict_set d k v).
Proof.
  induction d as [|[k0 v0] d IH]; simpl; [reflexivity|].
  destruct (k0 =? k); simpl; [reflexivity | now rewrite IH].
Qed.

Lemma dict_comp_map_values {A B V W} (g : V -> W) (G : A -> B)
    (f : A -> result (Z * V)) (f' : B -> result (Z * W)) :
  (forall a, f' (G a) = result_map (fun kv => (fst kv, g (snd kv))) (f a)) ->
  forall items acc,
    dict_comp f' (map G items) (map_values g acc)
    = result_map (map_values g) (dict_comp f items acc).
Proof.
  intros Hf. induction items as [|a items IH]; intros acc; simpl;
    [reflexivity|].
  rewrite Hf. destruct (f a) as [kv|e]; simpl; [|reflexivity].
  rewrite dict_set_map_values. apply IH.
Qed.

Lemma combine_map_values {V W} (g : V -> W) (ks : list Z) (h : dict string V) :
  combine ks (map_values g h)
  = map (fun e => (fst e, (fst (snd e), g (snd (snd e))))) (combine ks h).
Proof.
  revert h; induction ks as [|k ks IH]; intros [|item h]; simpl;
    try reflexivity. now rewrite <- IH.
Qed.

Lemma mapM_int_map_values {V W} (g : V -> W) (h : dict string V) :
  mapM (fun item => Py.int (fst item)) (map_values g h)
  = mapM (fun item => Py.int (fst item)) h.
Proof.
  induction h as [|item h IH]; simpl; [reflexivity|]. now rewrite IH.
Qed.

Lemma keys_integer_map_values {V W} (g : V -> W) (h : dict string V) :
  keys_integer (map_values g h) = result_map (map_values g) (keys_integer h).
Proof.
  unfold keys_integer, Py.sorted_key. rewrite mapM_int_map_values.
  destruct (mapM (fun item => Py.int (fst item)) h) as [ks|e]; simpl;
    [|reflexivity].
  rewrite combine_map_values.
  rewrite (sorted_map (fun a b => fst a <? fst b) (fun a b => fst a <? fst b))
    by reflexivity.
  rewrite map_map. simpl.
  rewrite <- (map_map snd (fun item => (fst item, g (snd item)))).
  apply (dict_comp_map_values g (fun item => (fst item, g (snd item)))
           (fun item => key <- Py.int (fst item) ;; Ok (key, snd item))
           (fun item => key <- Py.int (fst item) ;; Ok (key, snd item))
           ltac:(intros a; simpl; now destruct (Py.int (fst a))) _ []).
Qed.

(** ** [deforestation_rate] as a whole *)

Lemma keys_map_values {K V W} (g : V -> W) (d : dict K V) :
  keys (map_values g d) = keys d.
Proof. unfold keys, map_values. rewrite map_map. reflexivity. Qed.

Lemma deforestation_rate_map_values image (g : Q -> Q) (years : dict string Q) :
  deforestation_rate image (map_values g years) = deforestation_rate image years.
Proof.
  unfold deforestation_rate. rewrite keys_integer_map_values.
  destruct (keys_integer years) as [d|e]; simpl; [|reflexivity].
  unfold index_loss_sum. now rewrite keys_map_values.
Qed.

(** X11. The frequencies of the histogram are not used: two histograms
    with the same keys in the same order make [deforestation_rate] end
    the same way, whatever their counts. *)
Theorem deforestation_rate_ignores_counts (image : list EE.pixel)
    (years years' : dict string Q) :
  keys years = keys years' ->
  deforestation_rate image years = deforestation_rate image years'.
Proof.
  intros Hk.
  rewrite <- (deforestation_rate_map_values image (fun _ => 0%Q) years).
  rewrite <- (deforestation_rate_map_values image (fun _ => 0%Q) years').
  f_equal. unfold map_values.
  rewrite <- (map_map fst (fun s => (s, 0%Q)) years).
  rewrite <- (map_map fst (fun s => (s, 0%Q)) years').
  unfold keys in Hk. now rewrite Hk.
Qed.

Lemma deforestation_rate_ignores_counts_witness :
  deforestation_rate four_cells [("1"%string, 2%Q); ("2"%string, 2%Q)]
  = deforestation_rate four_cells [("1"%string, 700%Q); ("2"%string, 0%Q)].
Proof. apply deforestation_rate_ignores_counts. reflexivity. Defined.

(** X12. A histogram with a single key, denoting an index of the table,
    makes [deforestation_rate] end on the [ValueError] of [max]: with one
    year there is no rate, and the peak of no rate is asked for.  The
    same holds for the histogram without keys. *)
Theorem deforestation_rate_single_year (image : list EE.pixel)
    (s : string) (count : Q) (k : Z) :
  Py.parse_int s = Some k -> 1 <= k <= 22 ->
  deforestation_rate image [(s, count)]
  = Raise (ValueError "max() arg is an empty sequence") /\
  deforestation_rate image []
  = Raise (ValueError "max() arg is an empty sequence").
Proof.
  intros Hs Hk. split; [|reflexivity].
  unfold deforestation_rate, keys_integer, Py.sorted_key, Py.int.
  cbn [mapM fst snd bind]. rewrite Hs. cbn [bind combine Py.sorted Py.insert map
    dict_comp fst snd dict_set].
  rewrite Hs. cbn [bind fst snd dict_comp dict_set].
  unfold index_loss_sum, year_mapping.
  cbn [keys map fst snd fold_left dict_set dict_comp].
  rewrite (subscript_in k Hk). reflexivity.
Qed.

Lemma deforestation_rate_single_year_witness :
  deforestation_rate four_cells [("2"%string, 4%Q)]
  = Raise (ValueError "max() arg is an empty sequence") /\
  deforestation_rate four_cells []
  = Raise (ValueError "max() arg is an empty sequence").
Proof.
  apply (deforestation_rate_single_year four_cells "2"%string 4%Q 2).
  - reflexivity.
  - lia.
Defined.

(** ** The two area figures *)

Lemma Qltb_inject_Z a b : Py.Qltb (inject_Z a) (inject_Z b) = (a <? b).
Proof.
  unfold Py.Qltb, Qle_bool, inject_Z; simpl.
  rewrite !Z.mul_1_r. symmetry. apply Z.ltb_antisym.
Qed.

Lemma of_bool_nonzero b : negb (Qeq_bool (EE.of_bool b) 0) = b.
Proof. now destruct b. Qed.

Lemma And_of_bool (i j : EE.Image) (a b : bool) p :
  i p = EE.of_bool a -> j p = EE.of_bool b -> EE.And i j p = EE.of_bool (a && b).
Proof. intros Hi Hj. unfold EE.And. now rewrite Hi, Hj, !of_bool_nonzero. Qed.

Lemma masked_area_sum (mask : EE.Image) (inside : EE.pixel -> bool) image :
  (forall p, mask p = EE.of_bool (inside p)) ->
  (EE.reduceRegion_sum image (EE.multiply mask EE.pixelArea)
   == total_area (filter inside image))%Q.
Proof.
  intros Hm. unfold EE.reduceRegion_sum. rewrite Qred_correct.
  induction image as [|p image IH]; simpl; [reflexivity|].
  rewrite IH. unfold EE.multiply, EE.pixelArea. rewrite Hm.
  destruct (inside p); simpl; ring.
Qed.

Lemma stable_forest_cells_aux (image : list EE.pixel) :
  (stable_forest image
   == total_area
        (filter (fun p => (10 <? EE.treecover2000 p)
                          && (EE.gain p =? 0) && (EE.loss p =? 0))%bool image)
      / 1000000)%Q.
Proof.
  unfold stable_forest. rewrite Qred_correct.
  rewrite masked_area_sum; [reflexivity|].
  intros p. apply And_of_bool; [apply And_of_bool|].
  - unfold EE.gt, EE.select. now rewrite Qltb_inject_Z.
  - unfold EE.eq, EE.select. now rewrite Qeq_bool_inject_Z.
  - unfold EE.eq, EE.select. now rewrite Qeq_bool_inject_Z.
Qed.

(** X14. [stable_forest] reports, in square kilometres, the area of the
    cells whose canopy cover in 2000 is strictly above 10 (a cover of
    exactly 10 is left out) and which have neither gain nor loss. *)
Theorem stable_forest_cells (image : list EE.pixel) :
  (stable_forest image
   == total_area
        (filter (fun p => (10 <? EE.treecover2000 p)
                          && (EE.gain p =? 0) && (EE.loss p =? 0))%bool image)
      / 1000000)%Q.
Proof. exact (stable_forest_cells_aux image). Qed.

Lemma deforestation_cells_aux (image : list EE.pixel) :
  (deforestation image
   == total_area
        (filter (fun p => (10 <? EE.treecover2000 p) && (EE.loss p =? 1))%bool
                image)
      / 1000000)%Q.
Proof.
  unfold deforestation. rewrite Qred_correct.
  rewrite masked_area_sum; [reflexivity|].
  intros p. apply And_of_bool.
  - unfold EE.gt, EE.select. now rewrite Qltb_inject_Z.
  - unfold EE.eq, EE.select. now rewrite Qeq_bool_inject_Z.
Qed.

(** X15. [deforestation] reports, in square kilometres, the area of the
    cells whose canopy cover in 2000 is strictly above 10 and whose loss
    flag is 1, whatever their gain flag. *)
Theorem deforestation_cells (image : list EE.pixel) :
  (deforestation image
   == total_area
        (filter (fun p => (10 <? EE.treecover2000 p) && (EE.loss p =? 1))%bool
                image)
      / 1000000)%Q.
Proof. exact (deforestation_cells_aux image). Qed.

Lemma disjoint_area_sum (a b c : EE.pixel -> bool) image :
  Forall (fun p => (0 <= EE.area p)%Q) image ->
  (forall p, a p = true -> b p = false) ->
  (forall p, a p = true -> c p = true) ->
  (forall p, b p = true -> c p = true) ->
  (total_area (filter a image) + total_area (filter b image)
   <= total_area (filter c image))%Q.
Proof.
  intros Hpos Hab Hac Hbc.
  induction Hpos as [|p image Hp Hpos IH]; simpl; [discriminate|].
  specialize (Hab p); specialize (Hac p); specialize (Hbc p).
  destruct (a p), (b p), (c p); simpl;
    try (specialize (Hab eq_refl)); try (specialize (Hac eq_refl));
    try (specialize (Hbc eq_refl)); try discriminate; lra.
Qed.

(** X16. No cell counts in both figures: when no cell has a negative
    area, the stable area and the deforested area together do not exceed
    the area of the cells whose canopy cover in 2000 is above 10, in
    square kilometres. *)
Theorem stable_and_deforested_disjoint (image : list EE.pixel) :
  Forall (fun p => (0 <= EE.area p)%Q) image ->
  (stable_forest image + deforestation image
   <= total_area (filter (fun p => 10 <? EE.treecover2000 p) image) / 1000000)%Q.
Proof.
  intros Hpos. rewrite stable_forest_cells_aux, deforestation_cells_aux.
  pose proof (disjoint_area_sum
    (fun p => (10 <? EE.treecover2000 p) && (EE.gain p =? 0) && (EE.loss p =? 0))%bool
    (fun p => (10 <? EE.treecover2000 p) && (EE.loss p =? 1))%bool
    (fun p => 10 <? EE.treecover2000 p) image Hpos) as H.
  assert (Hle : (total_area
      (filter (fun p => (10 <? EE.treecover2000 p) && (EE.gain p =? 0)
                        && (EE.loss p =? 0))%bool image)
    + total_area
      (filter (fun p => (10 <? EE.treecover2000 p) && (EE.loss p =? 1))%bool image)
    <= total_area (filter (fun p => 10 <? EE.treecover2000 p) image))%Q).
  { apply H.
    - intros p Hp. apply andb_true_iff in Hp as [_ Hl]. apply Z.eqb_eq in Hl.
      rewrite Hl. apply andb_false_r.
    - intros p Hp. apply andb_true_iff in Hp as [Hp _].
      now apply andb_true_iff in Hp as [Hp _].
    - intros p Hp. now apply andb_true_iff in Hp as [Hp _]. }
  unfold Qdiv. rewrite <- Qmult_plus_distr_l.
  apply Qmult_le_compat_r; [exact Hle | discriminate].
Qed.

Lemma stable_and_deforested_disjoint_witness :
  (stable_forest four_cells + deforestation four_cells
   <= total_area (filter (fun p => 10 <? EE.treecover2000 p) four_cells)
      / 1000000)%Q.
Proof.
  apply stable_and_deforested_disjoint.
  repeat constructor; discriminate.
Defined.

(** ** When the decoder succeeds *)

(** X17. The decoder returns a series exactly when every key of the
    histogram denotes an integer of 1..22; keys that denote the same
    integer do not make it fail. *)
Theorem decode_succeeds_iff (V : Type) (h : dict string V) :
  (exists ys, decode h = Ok ys) <->
  Forall (fun item => exists k, Py.parse_int (fst item) = Some k /\ 1 <= k <= 22) h.
Proof.
  split.
  - intros [ys Hys]. unfold decode in Hys.
    destruct (Forall_Exists_dec parses parses_dec h) as [Hp|Hex].
    + destruct (keys_integer_keys h Hp) as [d [Hd Hk]].
      rewrite Hd in Hys; simpl in Hys.
      pose proof (year_mapping_domain d ys Hys) as Hdom.
      rewrite Forall_forall in *. intros item Hitem.
      assert (Hin : In (index_of (fst item)) (keys d))
        by (apply Hk, in_map_iff; now exists item).
      apply in_map_iff in Hin as [kv [Hkv Hkvd]].
      specialize (Hdom kv Hkvd). rewrite Hkv in Hdom.
      specialize (Hp item Hitem). unfold parses, index_of in *.
      destruct (Py.parse_int (fst item)) as [k|]; [|congruence].
      exists k; split; [reflexivity | exact Hdom].
    + destruct (sorted_key_Raise h Hex) as [item [_ [_ Hr]]].
      unfold keys_integer in Hys. now rewrite Hr in Hys.
  - intros Hall. destruct (parsed_parses h Hall) as [Hp Hd].
    destruct (keys_integer_keys h Hp) as [d [Hkd Hk]].
    destruct (year_mapping_total d) as [ys [Hys _]].
    + rewrite Forall_forall in *. intros kv Hkv.
      assert (Hin : In (fst kv) (keys d)) by now apply in_map.
      apply Hk, in_map_iff in Hin as [item [<- Hitem]]. now apply Hd.
    + exists ys. unfold decode. now rewrite Hkd.
Qed.

Lemma decode_succeeds_iff_witness :
  exists ys, decode [("1"%string, 5); ("01"%string, 7); ("22"%string, 9)] = Ok ys.
Proof.
  apply (proj2 (decode_succeeds_iff Z
                  [("1"%string, 5); ("01"%string, 7); ("22"%string, 9)])).
  repeat (apply Forall_cons;
          [eexists; split; [vm_compute; reflexivity | lia]|]).
  apply Forall_nil.
Defined.

(** ** The peak of the rates of a series *)

Lemma select_peak_in (r : dict Z Q) y rate :
  select_peak r = Ok (y, rate) -> In (y, rate) r.
Proof.
  destruct r as [|x l]; [discriminate|]. unfold select_peak, Py.max_key.
  intros Hm. injection Hm as Hm.
  destruct (max_from_first snd l x [] []) as [before [after [Heq _]]];
    [constructor | constructor |].
  simpl in Heq. rewrite Heq, Hm. apply in_or_app. right. now left.
Qed.

Lemma rate_calc_Ok_inv (d r : dict Z Q) :
  dict_wf d -> rate_calc d = Ok r ->
  keys r = tl (keys (by_year d)).
Proof.
  intros Hwf Hr.
  destruct (Forall_Exists_dec (fun b : Q => ~ (b == 0)%Q)
              (fun b => match Qeq_dec b 0 with
                        | left E => right (fun H => H E)
                        | right N => left N
                        end)
              (removelast (map snd (by_year d)))) as [Hall|Hex].
  - rewrite (rate_calc_Ok d Hwf Hall) in Hr. injection Hr as <-.
    destruct (by_year d) as [|[y0 v0] rest]; [reflexivity|].
    apply rates_from_keys.
  - rewrite rate_calc_Raise in Hr; [discriminate|].
    revert Hex. apply Exists_impl. intros b Hb.
    destruct (Qeq_dec b 0); [assumption | contradiction].
Qed.

(** X18. The year reported as the peak is a year of the series that has
    an earlier year in the series: the earliest year is never the peak. *)
Theorem peak_year_has_predecessor (d r : dict Z Q) (y : Z) (rate : Q) :
  dict_wf d ->
  rate_calc d = Ok r ->
  select_peak r = Ok (y, rate) ->
  In y (keys d) /\ exists y0, In y0 (keys d) /\ y0 < y.
Proof.
  intros Hwf Hr Hpeak.
  pose proof (rate_calc_Ok_inv d r Hwf Hr) as Hkeys.
  pose proof (by_year_ascending d Hwf) as Hs.
  assert (Hperm : Permutation (keys (by_year d)) (keys d))
    by (apply Permutation_map, by_year_perm).
  assert (Hy : In y (keys r))
    by (apply in_map_iff; exists (y, rate); split;
        [reflexivity | now apply select_peak_in]).
  rewrite Hkeys in Hy.
  destruct (keys (by_year d)) as [|y0 ys]; [contradiction|].
  simpl in Hy. inversion Hs as [|? ? _ Hlt]; subst.
  rewrite Forall_forall in Hlt. split.
  - apply (Permutation_in _ Hperm). now right.
  - exists y0. split; [apply (Permutation_in _ Hperm); now left | now apply Hlt].
Qed.

Lemma peak_year_has_predecessor_witness :
  In 2001 (keys [(2004, 8%Q); (2000, 10%Q); (2001, 25%Q)]) /\
  exists y0, In y0 (keys [(2004, 8%Q); (2000, 10%Q); (2001, 25%Q)]) /\ y0 < 2001.
Proof.
  apply (peak_year_has_predecessor [(2004, 8%Q); (2000, 10%Q); (2001, 25%Q)]
           [(2001, (3 # 2)%Q); (2004, (-17 # 25)%Q)] 2001 (3 # 2)%Q).
  - unfold dict_wf; simpl. repeat constructor; simpl; intuition discriminate.
  - reflexivity.
  - reflexivity.
Defined.
